(** * OrcaQ: the queue engine of [queue.go]

    A shallow embedding of the durable work queue: the job store with its
    transactions, the notification channel, the engine operations
    ([PushBytes], [PushJob], [GetJobByID], [updateJobStatus],
    [processJobs], [Init], [Close]) and the dispatch loop of
    [registerWorkerWithContext], followed by the properties of the
    engine. *)

From Stdlib.Strings Require Import Byte.
From stdpp Require Import gmap strings list fin_maps.

(** ** Bytes and keys *)

(** Go's [[]byte]. *)
Abbreviation bytes := (list byte).

#[global] Instance byte_eq_dec : EqDecision byte := Byte.byte_eq_dec.

#[global] Instance byte_countable : Countable byte :=
  inj_countable Byte.to_N Byte.of_N Byte.of_to_N.

(** ** Errors

    Modelled from the spec: the type [RecoverableWorkerError] that line
    118 asserts is declared outside [queue.go]; the spec has it as a
    distinct, classifiable kind of error.  The other values of Go's
    [error] that the engine meets are the errors of the store, of which
    the model names a closed handle and a key that is not there, and any
    other error with its text. *)
Inductive error : Type :=
  | ErrDBClosed
  | ErrNotFound
  | ErrOther (msg : string)
  | RecoverableWorkerError (msg : string).

(** [err.Error()] *)
Definition Error (e : error) : string :=
  match e with
  | ErrDBClosed => "db is closed"
  | ErrNotFound => "key not found"
  | ErrOther msg => msg
  | RecoverableWorkerError msg => msg
  end.

(** [_, ok := err.(RecoverableWorkerError)] *)
Definition isRecoverable (e : error) : bool :=
  match e with
  | RecoverableWorkerError _ => true
  | _ => false
  end.

(** A Go pair [(value, error)] of which exactly one side is set. *)
Inductive result (A : Type) : Type :=
  | Ok (a : A)
  | Err (e : error).
Arguments Ok {A} a.
Arguments Err {A} e.

(** The [error] half of a result: [None] is Go's [nil]. *)
Definition err_of {A} (r : result A) : option error :=
  match r with
  | Ok _ => None
  | Err e => Some e
  end.

(** ** Job records *)

(** Modelled from the spec: the status constants [Ack], [Nack], [Uack]
    and [Failed] are declared outside [queue.go]; the spec lists these
    four (Acknowledged, NegativeAcknowledged, Unacknowledged, Failed). *)
Inductive JobStatus : Type := Ack | Nack | Uack | Failed.

#[global] Instance JobStatus_eq_dec : EqDecision JobStatus.
Proof. solve_decision. Defined.

(** Modelled from the spec: the [Job] struct is declared outside
    [queue.go]; the fields are those the source reads and writes, with
    [RetryCount] a non-negative integer as the spec has it. *)
Record Job : Type := mkJob {
  Status : JobStatus;
  ID : bytes;
  Data : bytes;
  Message : string;
  RetryCount : nat
}.

#[global] Instance Job_eq_dec : EqDecision Job.
Proof. solve_decision. Defined.

Definition set_ID (id : bytes) (j : Job) : Job :=
  mkJob (Status j) id (Data j) (Message j) (RetryCount j).
Definition set_Status (s : JobStatus) (j : Job) : Job :=
  mkJob s (ID j) (Data j) (Message j) (RetryCount j).
Definition set_Message (m : string) (j : Job) : Job :=
  mkJob (Status j) (ID j) (Data j) m (RetryCount j).
Definition incr_RetryCount (j : Job) : Job :=
  mkJob (Status j) (ID j) (Data j) (Message j) (S (RetryCount j)).

(** Modelled from the spec: [j.Bytes()] and [DecodeJob] are defined
    outside [queue.go]; the spec asks of them that decoding is the exact
    inverse of encoding. *)
Class JobCodec : Type := {
  Bytes : Job -> bytes;
  DecodeJob : bytes -> Job;
  DecodeJob_Bytes : forall j, DecodeJob (Bytes j) = j
}.

(** Modelled from the spec: [uuid.NewV4().String()] is an external
    generator that is assumed to be free of collisions.  Its [n]-th draw
    is [NewV4 n]. *)
Class UuidSource : Type := {
  NewV4 : nat -> bytes;
  NewV4_inj : forall m n, NewV4 m = NewV4 n -> m = n
}.

(** ** The store

    The key/value store behind [q.db], reduced to the bucket ["Jobs"],
    the only one the engine uses.  [faults] is the script of failures
    the environment inflicts: every operation of a transaction and every
    commit consumes its head, and fails with [e] when the head is
    [Some e]. *)
Definition jobsBucketName : string := "Jobs".

Record DB : Type := mkDB {
  entries : gmap bytes bytes;
  closed : bool;
  faults : list (option error)
}.

(** A transaction in progress: its view of the bucket and what is left
    of the script. *)
Record Tx : Type := mkTx {
  pending : gmap bytes bytes;
  tx_faults : list (option error)
}.

Definition TxM (A : Type) : Type := Tx -> result A * Tx.

Definition tx_ret {A} (a : A) : TxM A := fun tx => (Ok a, tx).

Definition tx_bind {A B} (m : TxM A) (f : A -> TxM B) : TxM B :=
  fun tx =>
    match m tx with
    | (Ok a, tx') => f a tx'
    | (Err e, tx') => (Err e, tx')
    end.

(** The head of the script, and what is left of it; an exhausted script
    inflicts nothing more. *)
Definition next_fault (fs : list (option error))
  : option error * list (option error) :=
  match fs with
  | [] => (None, [])
  | f :: fs' => (f, fs')
  end.

(** One operation of a transaction: it fails when the script says so,
    and otherwise does [f] on the view. *)
Definition tx_op {A} (f : gmap bytes bytes -> result A * gmap bytes bytes)
  : TxM A :=
  fun tx =>
    match next_fault (tx_faults tx) with
    | (Some e, fs) => (Err e, mkTx (pending tx) fs)
    | (None, fs) => let (r, m) := f (pending tx) in (r, mkTx m fs)
    end.

(** [tx.Get(jobsBucketName, key)], giving [e.Value] *)
Definition tx_Get (key : bytes) : TxM bytes :=
  tx_op (fun m =>
    (match m !! key with Some v => Ok v | None => Err ErrNotFound end, m)).

(** [tx.Put(jobsBucketName, key, value, 0)] *)
Definition tx_Put (key value : bytes) : TxM unit :=
  tx_op (fun m => (Ok tt, <[key := value]> m)).

(** [tx.Delete(jobsBucketName, key)] *)
Definition tx_Delete (key : bytes) : TxM unit :=
  tx_op (fun m => (Ok tt, delete key m)).

(** [tx.GetAll(jobsBucketName)]: every entry, as its key and its value *)
Definition tx_GetAll : TxM (list (bytes * bytes)) :=
  tx_op (fun m => (Ok (map_to_list m), m)).

(** Opening a transaction fails on a closed handle. *)
Definition db_Begin (d : DB) : result Tx :=
  if closed d then Err ErrDBClosed else Ok (mkTx (entries d) (faults d)).

(** The end of a writing transaction: roll back when the function
    failed, commit otherwise; a failed commit rolls back too. *)
Definition db_End {A} (d : DB) (r : result A * Tx) : result A * DB :=
  match r with
  | (Err e, tx) => (Err e, mkDB (entries d) (closed d) (tx_faults tx))
  | (Ok a, tx) =>
      match next_fault (tx_faults tx) with
      | (Some e, fs) => (Err e, mkDB (entries d) (closed d) fs)
      | (None, fs) => (Ok a, mkDB (pending tx) (closed d) fs)
      end
  end.

(** [db.Update(fn)] *)
Definition db_Update {A} (fn : TxM A) (d : DB) : result A * DB :=
  match db_Begin d with
  | Err e => (Err e, d)
  | Ok tx => db_End d (fn tx)
  end.

(** [db.View(fn)]: nothing of the view is kept. *)
Definition db_View {A} (fn : TxM A) (d : DB) : result A * DB :=
  match db_Begin d with
  | Err e => (Err e, d)
  | Ok tx =>
      let (r, tx') := fn tx in
      (r, mkDB (entries d) (closed d) (tx_faults tx'))
  end.

(** [db.Close()] *)
Definition db_Close (d : DB) : option error * DB :=
  if closed d then (Some ErrDBClosed, d)
  else (None, mkDB (entries d) true (faults d)).

(** ** The queue *)

(** Modelled from the spec: the interface [Worker] is declared outside
    [queue.go]; it has an identity, [w.ID()], and [w.DoWork(ctx, job)],
    which returns an error or nil.  The model keeps the identity; what
    [DoWork] returns is an input of the dispatch loop below. *)
Record Worker : Type := mkWorker {
  WorkerID : string
}.

(** The [Queue] struct.  The channel [notifier] is its buffer, oldest
    first, or [None] for the nil channel; a cancel function is the handle
    of the context it cancels; [wg] is the counter of the wait group.
    [entropy] is not a field of the struct: it is the number of draws
    made from the UUID generator, a state of the process that [PushJob]
    alone advances. *)
Record Queue : Type := mkQueue {
  QueueID : string;
  db : DB;
  notifier : option (list bytes);
  workers : list Worker;
  shutdownFuncs : list nat;
  wg : Z;
  PollRate : Z;
  entropy : nat
}.

Definition set_db (d : DB) (q : Queue) : Queue :=
  mkQueue (QueueID q) d (notifier q) (workers q) (shutdownFuncs q)
          (wg q) (PollRate q) (entropy q).
Definition set_notifier (c : option (list bytes)) (q : Queue) : Queue :=
  mkQueue (QueueID q) (db q) c (workers q) (shutdownFuncs q)
          (wg q) (PollRate q) (entropy q).
Definition set_workers (ws : list Worker) (q : Queue) : Queue :=
  mkQueue (QueueID q) (db q) (notifier q) ws (shutdownFuncs q)
          (wg q) (PollRate q) (entropy q).
Definition set_shutdownFuncs (fs : list nat) (q : Queue) : Queue :=
  mkQueue (QueueID q) (db q) (notifier q) (workers q) fs
          (wg q) (PollRate q) (entropy q).
Definition set_wg (n : Z) (q : Queue) : Queue :=
  mkQueue (QueueID q) (db q) (notifier q) (workers q) (shutdownFuncs q)
          n (PollRate q) (entropy q).
Definition set_entropy (n : nat) (q : Queue) : Queue :=
  mkQueue (QueueID q) (db q) (notifier q) (workers q) (shutdownFuncs q)
          (wg q) (PollRate q) n.

(** [make(chan []byte, 1000)] *)
Definition notifier_capacity : nat := 1000.

(** What a call of the engine comes to: it returns [a] and leaves the
    queue as [q], or it is parked on [q.notifier <- id] with the queue as
    [q], the channel being full or nil.  A parked call goes on as [k q']
    once [id] has entered the channel, [q'] being the queue then. *)
Inductive outcome (A : Type) : Type :=
  | Returns (a : A) (q : Queue)
  | Blocks (id : bytes) (q : Queue) (k : Queue -> outcome A).
Arguments Returns {A} a q.
Arguments Blocks {A} id q k.

Fixpoint obind {A B} (o : outcome A) (f : A -> Queue -> outcome B)
  : outcome B :=
  match o with
  | Returns a q => f a q
  | Blocks id q k => Blocks id q (fun q' => obind (k q') f)
  end.

(** The queue a call leaves behind, returned or parked. *)
Definition queue_of {A} (o : outcome A) : Queue :=
  match o with
  | Returns _ q => q
  | Blocks _ q _ => q
  end.

(** [q.notifier <- id] *)
Definition send (id : bytes) (q : Queue) : outcome unit :=
  match notifier q with
  | Some buf =>
      if decide (length buf < notifier_capacity)
      then Returns tt (set_notifier (Some (buf ++ [id])) q)
      else Blocks id q (Returns tt)
  | None => Blocks id q (Returns tt)
  end.

Section Engine.

Context `{codec : JobCodec} `{uuids : UuidSource}.

(** [PushJob], lines 160-174.  The function handed to [db.Update]
    runs only once the transaction is open; it draws the UUID and
    overwrites [j.ID] whatever [tx.Put] answers, so the job of the
    caller comes back with the result. *)
Definition PushJob (j : Job) (q : Queue) : outcome (Job * result bytes) :=
  match db_Begin (db q) with
  | Err err => Returns (j, Err err) q
  | Ok tx =>
      let j := set_ID (NewV4 (entropy q)) j in
      let q := set_entropy (S (entropy q)) q in
      match db_End (db q) (tx_Put (ID j) (Bytes j) tx) with
      | (Err err, d) => Returns (j, Err err) (set_db d q)
      | (Ok _, d) =>
          obind (send (ID j) (set_db d q))
                (fun _ q => Returns (j, Ok (ID j)) q)
      end
  end.

(** [PushBytes], lines 149-156 *)
Definition PushBytes (d : bytes) (q : Queue) : outcome (Job * result bytes) :=
  let job := mkJob Uack [] d "" 0 in
  PushJob job q.

(** [GetJobByID], lines 177-188 *)
Definition GetJobByID (id : bytes) (q : Queue) : result Job * Queue :=
  let (r, d) :=
    db_View (tx_bind (tx_Get id) (fun e => tx_ret (DecodeJob e))) (db q) in
  (r, set_db d q).

(** The function [updateJobStatus] hands to [db.Update], lines
    193-203. *)
Definition updateJobStatus_fn (id : bytes) (status : JobStatus)
    (message : string) : TxM unit :=
  tx_bind (tx_Get id) (fun e =>
    let job := DecodeJob e in
    let job := set_Status status job in
    let job := set_Message message job in
    let job := if decide (status = Nack) then incr_RetryCount job else job in
    tx_Put (ID job) (Bytes job)).

(** [updateJobStatus], lines 191-210 *)
Definition updateJobStatus (id : bytes) (status : JobStatus)
    (message : string) (q : Queue) : outcome (option error) :=
  let (r, d) := db_Update (updateJobStatus_fn id status message) (db q) in
  let err := err_of r in
  let q := set_db d q in
  if decide (status = Nack /\ err = None)
  then obind (send id q) (fun _ q => Returns err q)
  else Returns err q.

(** The loop of [processJobs] over the entries, lines 220-244. *)
Fixpoint processJobs_loop (es : list (bytes * bytes)) : TxM unit :=
  match es with
  | [] => tx_ret tt
  | entry :: es' =>
      let job := DecodeJob (snd entry) in
      match Status job with
      | Uack => processJobs_loop es'
      | Nack => processJobs_loop es'
      | Failed =>
          tx_bind (tx_Delete (ID job)) (fun _ => processJobs_loop es')
      | Ack =>
          tx_bind (tx_Delete (ID job)) (fun _ => processJobs_loop es')
      end
  end.

(** [processJobs], lines 214-246 *)
Definition processJobs (q : Queue) : option error * Queue :=
  let (r, d) := db_Update (tx_bind tx_GetAll processJobs_loop) (db q) in
  (err_of r, set_db d q).

(** [Init], lines 43-70.  [opened] is what [nutsdb.Open] answered and
    [seed] the state of the UUID generator of the process. *)
Definition Init (filepath : string) (opened : result DB) (seed : nat)
  : result Queue :=
  match opened with
  | Err err => Err err
  | Ok d =>
      let q := mkQueue filepath d (Some []) [] [] 0 500000000 seed in
      let (err, q) := processJobs q in
      Ok q
  end.

(** What the dispatch loop does next with a job ID it has received:
    [continue], or call [w.DoWork(ctx, job)]. *)
Inductive dispatched : Type :=
  | Continue
  | InvokeDoWork (job : Job).

(** The dispatch loop from the receipt of [jobID] to the call of
    [DoWork], lines 100-116. *)
Definition dispatch_receive (w : Worker) (jobID : bytes) (q : Queue)
  : outcome dispatched :=
  obind (updateJobStatus jobID Uack
           (String.append "Picked up by " (WorkerID w)) q)
    (fun err q =>
       match err with
       | Some _ => Returns Continue q
       | None =>
           let (r, q) := GetJobByID jobID q in
           match r with
           | Err err =>
               obind (updateJobStatus jobID Failed (Error err) q)
                 (fun _ q => Returns Continue q)
           | Ok job => Returns (InvokeDoWork job) q
           end
       end).

(** The dispatch loop once [DoWork] has returned [err], lines
    117-131. *)
Definition dispatch_report (jobID : bytes) (err : option error) (q : Queue)
  : outcome unit :=
  match err with
  | Some err =>
      if isRecoverable err
      then obind (updateJobStatus jobID Nack (Error err) q)
             (fun _ q => Returns tt q)
      else obind (updateJobStatus jobID Failed (Error err) q)
             (fun _ q => Returns tt q)
  | None =>
      obind (updateJobStatus jobID Ack "Complete" q)
        (fun _ q => Returns tt q)
  end.

End Engine.

(** ** Listing the jobs *)

Section Listing.

Context `{codec : JobCodec}.

(** The loop of [ListJobs] over the entries, lines 256-259: the map
    [r], of Go type [map[string]interface{}], is keyed by
    [string(job.ID)] and takes the jobs in the order of the entries, a
    later job replacing an earlier one of the same ID. *)
Definition ListJobs_loop (es : list (bytes * bytes)) : gmap bytes Job :=
  foldl (fun r entry =>
           let job := DecodeJob (snd entry) in
           <[ID job := job]> r) ∅ es.

(** [ListJobs], lines 249-266 *)
Definition ListJobs (q : Queue) : result (gmap bytes Job) * Queue :=
  let (r, d) :=
    db_View (tx_bind tx_GetAll (fun es => tx_ret (ListJobs_loop es)))
            (db q) in
  (r, set_db d q).

End Listing.

(** ** The goroutines

    The queue with the goroutines that run on it, one step of one
    goroutine at a time: the dispatch loops that
    [registerWorkerWithContext] starts, the caller of [Close], and the
    callers of [RegisterWorker], [PushJob] and [GetJobByID].  A step of
    a loop is one transaction on the store, one operation on the
    channel or the return of [DoWork]; a step of [Close] is one of its
    lines.  The queue is torn down once: [Close] is called at most one
    time, and no worker is registered from then on, [RegisterWorker]
    and [Close] writing the same fields of the queue without a lock. *)

(** Where a dispatch loop stands, lines 93-136. *)
Inductive LoopPC : Type :=
  | AtSelect                                   (* line 95, the [select] *)
  | Received (jobID : bytes)                   (* line 101, before the marking *)
  | Marked (jobID : bytes)                     (* line 109, before the fetch *)
  | FetchFailed (jobID : bytes) (err : error)  (* line 112 *)
  | Working (jobID : bytes) (job : Job)        (* line 116, in [DoWork] *)
  | Reporting (jobID : bytes) (err : option error)  (* line 117 *)
  | Parked (id : bytes) (k : Queue -> outcome unit) (* on [q.notifier <- id] *)
  | Exited.                                    (* line 99, after [return] *)

(** A dispatch loop: its worker, the handle of its context, where it
    stands. *)
Record Loop : Type := mkLoop {
  loop_worker : Worker;
  loop_ctx : nat;
  loop_pc : LoopPC
}.

Definition set_pc (pc : LoopPC) (l : Loop) : Loop :=
  mkLoop (loop_worker l) (loop_ctx l) pc.

(** Where the caller of [Close] stands, lines 73-82. *)
Inductive ClosePC : Type :=
  | NotCalled
  | Cancelling (fs : list nat)   (* line 74, the handles still to call *)
  | Waiting                      (* line 77, in [q.wg.Wait()] *)
  | Closing                      (* line 78 *)
  | Returned (err : option error).

(** The contexts made by [RegisterWorker], [true] once cancelled; the
    IDs that parked calls of [PushJob] still have to send. *)
Record System : Type := mkSystem {
  queue : Queue;
  contexts : list bool;
  loops : list Loop;
  parked_pushes : list bytes;
  closer : ClosePC
}.

(** Who takes a step. *)
Inductive actor : Type :=
  | ALoop (i : nat)
  | ACloser
  | AClient.

(** A loop goes on to its next round, or is parked. *)
Definition settle (o : outcome unit) : Queue * LoopPC :=
  match o with
  | Returns _ q => (q, AtSelect)
  | Blocks id q k => (q, Parked id k)
  end.

Section Goroutines.

Context `{codec : JobCodec} `{uuids : UuidSource}.

(** One step of a dispatch loop of worker [w], whose context is
    cancelled or not as [done] says. *)
Inductive loop_step (w : Worker) (done : bool)
  : Queue -> LoopPC -> Queue -> LoopPC -> Prop :=
  | loop_exit q :                      (* lines 96-99 *)
      done = true ->
      loop_step w done q AtSelect (set_wg (wg q - 1) q) Exited
  | loop_receive q jobID buf :         (* line 100 *)
      notifier q = Some (jobID :: buf) ->
      loop_step w done q AtSelect
                (set_notifier (Some buf) q) (Received jobID)
  | loop_sleep q :                     (* lines 132-134 *)
      done = false ->
      (notifier q = None \/ notifier q = Some []) ->
      loop_step w done q AtSelect q AtSelect
  | loop_mark q jobID err q' :         (* lines 102-106 *)
      updateJobStatus jobID Uack
        (String.append "Picked up by " (WorkerID w)) q = Returns err q' ->
      loop_step w done q (Received jobID) q'
                (match err with Some _ => AtSelect | None => Marked jobID end)
  | loop_fetch q jobID r q' :          (* lines 109-110 *)
      GetJobByID jobID q = (r, q') ->
      loop_step w done q (Marked jobID) q'
                (match r with
                 | Ok job => Working jobID job
                 | Err err => FetchFailed jobID err
                 end)
  | loop_fetch_failed q jobID err err' q' :   (* lines 111-113 *)
      updateJobStatus jobID Failed (Error err) q = Returns err' q' ->
      loop_step w done q (FetchFailed jobID err) q' AtSelect
  | loop_work q jobID job err :        (* line 116: [DoWork] returns *)
      loop_step w done q (Working jobID job) q (Reporting jobID err)
  | loop_report q jobID err :          (* lines 117-131 *)
      loop_step w done q (Reporting jobID err)
                (fst (settle (dispatch_report jobID err q)))
                (snd (settle (dispatch_report jobID err q)))
  | loop_unpark q id k buf :           (* the parked send goes through *)
      notifier q = Some buf ->
      length buf < notifier_capacity ->
      loop_step w done q (Parked id k)
        (fst (settle (k (set_notifier (Some (buf ++ [id])) q))))
        (snd (settle (k (set_notifier (Some (buf ++ [id])) q)))).

(** [RegisterWorker], lines 141-146, with
    [registerWorkerWithContext] up to the [go] statement, lines
    86-90: the new context is the next handle. *)
Definition RegisterWorker (w : Worker) (s : System) : System :=
  let ctx := length (contexts s) in
  let q := queue s in
  let q := set_shutdownFuncs (shutdownFuncs q ++ [ctx]) q in
  let q := set_workers (workers q ++ [w]) q in
  let q := set_wg (wg q + 1) q in
  mkSystem q (contexts s ++ [false]) (loops s ++ [mkLoop w ctx AtSelect])
           (parked_pushes s) (closer s).

(** The end of [Close], lines 78-81. *)
Definition Close_tail (q : Queue) : option error * Queue :=
  let q := set_notifier None q in
  let q := set_workers [] q in
  let q := set_shutdownFuncs [] q in
  let (err, d) := db_Close (db q) in
  (err, set_db d q).

Inductive step : System -> actor -> System -> Prop :=
  | step_loop s i l q' pc' :
      loops s !! i = Some l ->
      loop_step (loop_worker l)
                (default false (contexts s !! loop_ctx l))
                (queue s) (loop_pc l) q' pc' ->
      step s (ALoop i)
           (mkSystem q' (contexts s) (<[i := set_pc pc' l]> (loops s))
                     (parked_pushes s) (closer s))
  (* [RegisterWorker], by a caller that has not called [Close] *)
  | step_register s w :
      closer s = NotCalled ->
      step s AClient (RegisterWorker w s)
  | step_push s j :
      step s AClient
           (mkSystem (queue_of (PushJob j (queue s))) (contexts s) (loops s)
              (match PushJob j (queue s) with
               | Returns _ _ => parked_pushes s
               | Blocks id _ _ => parked_pushes s ++ [id]
               end)
              (closer s))
  | step_push_unpark s i id buf :
      parked_pushes s !! i = Some id ->
      notifier (queue s) = Some buf ->
      length buf < notifier_capacity ->
      step s AClient
           (mkSystem (set_notifier (Some (buf ++ [id])) (queue s))
              (contexts s) (loops s) (delete i (parked_pushes s))
              (closer s))
  | step_get s id :
      step s AClient
           (mkSystem (snd (GetJobByID id (queue s))) (contexts s) (loops s)
              (parked_pushes s) (closer s))
  (* [Close] is called, line 73 *)
  | step_close_call s :
      closer s = NotCalled ->
      step s ACloser
           (mkSystem (queue s) (contexts s) (loops s) (parked_pushes s)
              (Cancelling (shutdownFuncs (queue s))))
  (* lines 74-76, one cancel function *)
  | step_close_cancel s f fs :
      closer s = Cancelling (f :: fs) ->
      step s ACloser
           (mkSystem (queue s) (<[f := true]> (contexts s)) (loops s)
              (parked_pushes s) (Cancelling fs))
  | step_close_wait s :
      closer s = Cancelling [] ->
      step s ACloser
           (mkSystem (queue s) (contexts s) (loops s) (parked_pushes s)
              Waiting)
  (* line 77: [Wait] returns when the counter is zero *)
  | step_close_waited s :
      closer s = Waiting ->
      wg (queue s) = 0%Z ->
      step s ACloser
           (mkSystem (queue s) (contexts s) (loops s) (parked_pushes s)
              Closing)
  (* lines 78-81 *)
  | step_close_return s :
      closer s = Closing ->
      step s ACloser
           (mkSystem (snd (Close_tail (queue s))) (contexts s) (loops s)
              (parked_pushes s) (Returned (fst (Close_tail (queue s))))).

(** The system [Init] leaves: the queue, and no goroutine yet. *)
Definition boot (q : Queue) : System := mkSystem q [] [] [] NotCalled.

Inductive reachable : System -> Prop :=
  | reachable_boot filepath d seed q :
      Init filepath (Ok d) seed = Ok q ->
      reachable (boot q)
  | reachable_step s a s' :
      reachable s -> step s a s' -> reachable s'.

End Goroutines.

(** ** Reference instances

    A codec and a UUID source to run the engine on concrete inputs. *)

(** A number in unary: [n] bytes 01 and a byte 00. *)
Fixpoint put_nat (n : nat) : bytes :=
  match n with
  | O => [x00]
  | S n' => x01 :: put_nat n'
  end.

Fixpoint get_nat (b : bytes) : nat * bytes :=
  match b with
  | x01 :: b' => let (n, rest) := get_nat b' in (S n, rest)
  | _ :: b' => (O, b')
  | [] => (O, [])
  end.

(** A byte string behind its length. *)
Definition put_bytes (b : bytes) : bytes := put_nat (length b) ++ b.

Definition get_bytes (b : bytes) : bytes * bytes :=
  let (n, rest) := get_nat b in (take n rest, drop n rest).

Definition put_status (s : JobStatus) : byte :=
  match s with Ack => x00 | Nack => x01 | Uack => x02 | Failed => x03 end.

Definition get_status (b : byte) : JobStatus :=
  match b with x00 => Ack | x01 => Nack | x03 => Failed | _ => Uack end.

Definition ref_Bytes (j : Job) : bytes :=
  put_status (Status j) :: put_bytes (ID j) ++ put_bytes (Data j)
    ++ put_bytes (String.list_byte_of_string (Message j)) ++ put_nat (RetryCount j).

Definition ref_DecodeJob (b : bytes) : Job :=
  match b with
  | [] => mkJob Uack [] [] "" 0
  | s :: b =>
      let (id, b) := get_bytes b in
      let (data, b) := get_bytes b in
      let (msg, b) := get_bytes b in
      let (n, _) := get_nat b in
      mkJob (get_status s) id data (String.string_of_list_byte msg) n
  end.

Lemma get_put_nat n rest : get_nat (put_nat n ++ rest) = (n, rest).
Proof.
  induction n as [|n IH]; simpl; [reflexivity|].
  rewrite IH. reflexivity.
Qed.

Lemma get_put_bytes b rest : get_bytes (put_bytes b ++ rest) = (b, rest).
Proof.
  unfold get_bytes, put_bytes. rewrite <- app_assoc, get_put_nat.
  rewrite take_app_length, drop_app_length. reflexivity.
Qed.

Lemma get_put_status s : get_status (put_status s) = s.
Proof. destruct s; reflexivity. Qed.

Lemma ref_DecodeJob_Bytes j : ref_DecodeJob (ref_Bytes j) = j.
Proof.
  destruct j as [s id data msg n]. unfold ref_Bytes, ref_DecodeJob. simpl.
  rewrite !get_put_bytes.
  replace (put_nat n) with (put_nat n ++ []) by apply app_nil_r.
  rewrite get_put_nat, get_put_status, String.string_of_list_byte_of_string.
  reflexivity.
Qed.

Definition ref_codec : JobCodec :=
  {| Bytes := ref_Bytes; DecodeJob := ref_DecodeJob;
     DecodeJob_Bytes := ref_DecodeJob_Bytes |}.

(** The [n]-th UUID of the reference source: [n+1] times the byte "u". *)
Definition ref_NewV4 (n : nat) : bytes := replicate (S n) "u"%byte.

Lemma ref_NewV4_inj m n : ref_NewV4 m = ref_NewV4 n -> m = n.
Proof.
  unfold ref_NewV4. intros H.
  apply (f_equal length) in H. rewrite !length_replicate in H. lia.
Qed.

Definition ref_uuids : UuidSource :=
  {| NewV4 := ref_NewV4; NewV4_inj := ref_NewV4_inj |}.

(** ** Properties of the store *)

(** The environment fails none of the next [n] store operations. *)
Definition quiet (n : nat) (fs : list (option error)) : Prop :=
  Forall (fun f => f = None) (take n fs).

#[global] Instance quiet_dec n fs : Decision (quiet n fs).
Proof. unfold quiet. apply _. Defined.

Lemma quiet_next n fs :
  quiet (S n) fs -> fst (next_fault fs) = None /\ quiet n (snd (next_fault fs)).
Proof.
  unfold quiet. destruct fs as [|f fs]; simpl.
  - intros _. split; [reflexivity|]. rewrite take_nil. constructor.
  - intros H. apply Forall_cons in H as [-> H]. auto.
Qed.

Lemma quiet_le n m fs : m <= n -> quiet n fs -> quiet m fs.
Proof.
  unfold quiet. intros Hle H.
  replace (take m fs) with (take m (take n fs))
    by (rewrite take_take; f_equal; lia).
  apply Forall_take, H.
Qed.

Lemma tx_op_quiet {A} (f : gmap bytes bytes -> result A * gmap bytes bytes)
    n tx :
  quiet (S n) (tx_faults tx) ->
  exists fs, quiet n fs /\
    tx_op f tx = (fst (f (pending tx)), mkTx (snd (f (pending tx))) fs).
Proof.
  intros H. apply quiet_next in H as [H1 H2]. unfold tx_op.
  destruct (next_fault (tx_faults tx)) as [o fs]. simpl in *. subst o.
  exists fs. split; [assumption|]. destruct (f (pending tx)); reflexivity.
Qed.

Lemma tx_op_inv {A} (f : gmap bytes bytes -> result A * gmap bytes bytes)
    tx r tx' :
  tx_op f tx = (r, tx') ->
  (exists e, r = Err e /\ pending tx' = pending tx) \/
  (r = fst (f (pending tx)) /\ pending tx' = snd (f (pending tx))).
Proof.
  unfold tx_op. destruct (next_fault (tx_faults tx)) as [[e|] fs].
  - intros [= <- <-]. left. eauto.
  - destruct (f (pending tx)) as [r0 m]. intros [= <- <-]. right. auto.
Qed.

Lemma db_Update_inv {A} (fn : TxM A) d r d' :
  db_Update fn d = (r, d') ->
  closed d' = closed d /\
  ((exists e, r = Err e /\ entries d' = entries d) \/
   (exists a tx', r = Ok a /\ closed d = false /\
      fst (fn (mkTx (entries d) (faults d))) = Ok a /\
      snd (fn (mkTx (entries d) (faults d))) = tx' /\
      entries d' = pending tx')).
Proof.
  unfold db_Update, db_Begin. destruct (closed d) eqn:Hc.
  - intros [= <- <-]. split; [congruence|]. left. eauto.
  - unfold db_End. destruct (fn _) as [[a|e] tx'] eqn:Hfn.
    + destruct (next_fault (tx_faults tx')) as [[e|] fs];
        intros [= <- <-]; simpl; (split; [congruence|]).
      * left. eauto.
      * right. exists a, tx'. auto.
    + intros [= <- <-]. simpl. split; [congruence|]. left. eauto.
Qed.

Lemma db_Update_quiet {A} (fn : TxM A) d a tx' n :
  closed d = false ->
  fn (mkTx (entries d) (faults d)) = (Ok a, tx') ->
  quiet (S n) (tx_faults tx') ->
  exists fs, quiet n fs /\ db_Update fn d = (Ok a, mkDB (pending tx') false fs).
Proof.
  intros Hc Hfn Hq. unfold db_Update, db_Begin, db_End. rewrite Hc, Hfn.
  apply quiet_next in Hq as [H1 H2].
  destruct (next_fault (tx_faults tx')) as [o fs]. simpl in *. subst o.
  exists fs. auto.
Qed.

Lemma db_View_inv {A} (fn : TxM A) d r d' :
  db_View fn d = (r, d') ->
  closed d' = closed d /\ entries d' = entries d /\
  (closed d = true /\ r = Err ErrDBClosed \/
   closed d = false /\ r = fst (fn (mkTx (entries d) (faults d)))).
Proof.
  unfold db_View, db_Begin. destruct (closed d) eqn:Hc.
  - intros [= <- <-]. auto.
  - destruct (fn _) as [r0 tx']. intros [= <- <-]. simpl.
    split; [congruence|]. auto.
Qed.

(** ** Properties of the engine *)

(** A call returns [a]: at once, or once the sends it is parked on have
    gone through. *)
Inductive yields {A} : outcome A -> A -> Prop :=
  | yields_Returns a q : yields (Returns a q) a
  | yields_Blocks id q k a :
      (forall q', yields (k q') a) -> yields (Blocks id q k) a.

(** A call whose last act is [q.notifier <- id] on the queue [q],
    returning [a] after it: either the channel has room, [id] joins the
    back of the buffer and the call returns, or the call is parked on
    that very send. *)
Inductive Signals {A} (id : bytes) (a : A) (q : Queue) : outcome A -> Prop :=
  | Signals_sent buf :
      notifier q = Some buf ->
      length buf < notifier_capacity ->
      Signals id a q (Returns a (set_notifier (Some (buf ++ [id])) q))
  | Signals_parked k :
      (forall buf, notifier q = Some buf -> notifier_capacity <= length buf) ->
      (forall q', k q' = Returns a q') ->
      Signals id a q (Blocks id q k).

Lemma send_Signals {A} id (a : A) q :
  Signals id a q (obind (send id q) (fun _ q' => Returns a q')).
Proof.
  unfold send. destruct (notifier q) as [buf|] eqn:Hn.
  - destruct (decide (length buf < notifier_capacity)) as [Hlt|Hge]; simpl.
    + apply Signals_sent; assumption.
    + apply Signals_parked; [|reflexivity].
      intros buf' Hb. assert (buf' = buf) as -> by congruence. lia.
  - simpl. apply Signals_parked; [|reflexivity]. intros buf' Hb. congruence.
Qed.

Lemma Signals_queue_of {A} id (a : A) q o :
  Signals id a q o ->
  (exists c, queue_of o = set_notifier c q) /\ yields o a.
Proof.
  intros [buf Hn Hlt|k Hfull Hk]; simpl.
  - split; [eauto|constructor].
  - split; [exists (notifier q); destruct q; reflexivity|].
    constructor. intros q'. rewrite Hk. constructor.
Qed.

Lemma yields_inj {A} (o : outcome A) a b : yields o a -> yields o b -> a = b.
Proof.
  induction 1 as [a q|id q k a _ IH]; inversion 1; subst; [reflexivity|].
  apply (IH q). auto.
Qed.

Section EngineProperties.

Context `{codec : JobCodec} `{uuids : UuidSource}.

(** The record [updateJobStatus] writes back for [job]. *)
Definition marked (status : JobStatus) (message : string) (job : Job)
  : Job :=
  mkJob status (ID job) (Data job) message
        (if decide (status = Nack) then S (RetryCount job)
         else RetryCount job).

(** Every record is stored under its own ID. *)
Definition store_wf (d : DB) : Prop :=
  forall k v, entries d !! k = Some v -> ID (DecodeJob v) = k.

(** No UUID still to be drawn is a key of the store. *)
Definition uuid_fresh (q : Queue) : Prop :=
  forall n, entropy q <= n -> entries (db q) !! NewV4 n = None.

Definition terminal (s : JobStatus) : bool :=
  match s with
  | Ack | Failed => true
  | Nack | Uack => false
  end.

(** *** [updateJobStatus] *)

Lemma updateJobStatus_fn_inv id status message tx r tx' :
  updateJobStatus_fn id status message tx = (r, tx') ->
  (exists e, r = Err e) \/
  (exists v, r = Ok tt /\ pending tx !! id = Some v /\
     pending tx' =
       <[ID (DecodeJob v) := Bytes (marked status message (DecodeJob v))]>
         (pending tx)).
Proof.
  unfold updateJobStatus_fn, tx_bind, tx_Get, tx_Put.
  destruct (tx_op _ tx) as [[v|e] tx1] eqn:H1.
  - apply tx_op_inv in H1 as [(e & [=] & _)|[H1 H1']]. simpl in *.
    destruct (pending tx !! id) as [v0|] eqn:Hv; [|discriminate].
    injection H1 as ->.
    intros H2. apply tx_op_inv in H2 as [(e & -> & _)|[H2 H2']]; [eauto|].
    right. exists v0. simpl in *. subst r. rewrite H2', H1'.
    split; [reflexivity|]. split; [reflexivity|].
    unfold marked. destruct (decide (status = Nack)); reflexivity.
  - intros [= <- <-]. eauto.
Qed.

Lemma updateJobStatus_fn_quiet id status message tx v n :
  pending tx !! id = Some v ->
  quiet (S (S n)) (tx_faults tx) ->
  exists fs, quiet n fs /\
    updateJobStatus_fn id status message tx =
      (Ok tt,
       mkTx (<[ID (DecodeJob v) :=
                 Bytes (marked status message (DecodeJob v))]> (pending tx))
            fs).
Proof.
  intros Hv Hq. unfold updateJobStatus_fn, tx_bind, tx_Get, tx_Put.
  destruct (tx_op_quiet
    (fun m => (match m !! id with Some v => Ok v | None => Err ErrNotFound end,
               m)) (S n) tx Hq) as (fs1 & Hq1 & ->).
  simpl. rewrite Hv.
  match goal with |- context [tx_op ?f ?t] =>
    destruct (tx_op_quiet f n t Hq1) as (fs2 & Hq2 & ->) end.
  simpl. exists fs2. split; [assumption|].
  unfold marked. destruct (decide (status = Nack)); reflexivity.
Qed.

(** What the transaction of [updateJobStatus] does to the store. *)
Lemma updateJobStatus_tx id status message d r d' :
  db_Update (updateJobStatus_fn id status message) d = (r, d') ->
  closed d' = closed d /\
  ((exists e, r = Err e /\ entries d' = entries d) \/
   (exists v, r = Ok tt /\ closed d = false /\ entries d !! id = Some v /\
      entries d' =
        <[ID (DecodeJob v) := Bytes (marked status message (DecodeJob v))]>
          (entries d))).
Proof.
  intros H. apply db_Update_inv in H as [Hc [H|H]]; (split; [assumption|]).
  - left. assumption.
  - destruct H as (a & tx' & -> & Hcl & H1 & H2 & H3).
    destruct (updateJobStatus_fn id status message _) as [r1 tx1] eqn:Hfn.
    simpl in *. subst r1 tx1.
    apply updateJobStatus_fn_inv in Hfn as [(e & [=])|(v & _ & Hv & Hp)].
    right. exists v. destruct a. simpl in *. rewrite H3, Hp. auto.
Qed.

Lemma updateJobStatus_tx_quiet id status message d v n :
  closed d = false ->
  entries d !! id = Some v ->
  quiet (S (S (S n))) (faults d) ->
  exists fs, quiet n fs /\
    db_Update (updateJobStatus_fn id status message) d =
      (Ok tt,
       mkDB (<[ID (DecodeJob v) :=
                 Bytes (marked status message (DecodeJob v))]> (entries d))
            false fs).
Proof.
  intros Hc Hv Hq.
  destruct (updateJobStatus_fn_quiet id status message
              (mkTx (entries d) (faults d)) v (S n) Hv Hq)
    as (fs1 & Hq1 & Hfn).
  destruct (db_Update_quiet _ d tt _ n Hc Hfn Hq1) as (fs & Hq2 & ->).
  exists fs. auto.
Qed.

(** The two ways [updateJobStatus] ends, by the result of its
    transaction. *)
Lemma updateJobStatus_cases id status message q :
  exists r d',
    db_Update (updateJobStatus_fn id status message) (db q) = (r, d') /\
    ((status = Nack /\ err_of r = None /\
      Signals id None (set_db d' q) (updateJobStatus id status message q)) \/
     ((status <> Nack \/ err_of r <> None) /\
      updateJobStatus id status message q = Returns (err_of r) (set_db d' q))).
Proof.
  unfold updateJobStatus.
  destruct (db_Update _ (db q)) as [r d'] eqn:Hup.
  exists r, d'. split; [reflexivity|].
  destruct (decide (status = Nack /\ err_of r = None)) as [[Hs He]|Hn].
  - left. split; [assumption|]. split; [assumption|].
    rewrite He. apply send_Signals.
  - right. split; [|reflexivity].
    destruct (decide (status = Nack)); [|auto].
    right. intros He. apply Hn. auto.
Qed.

(** A call of [updateJobStatus] that returns [nil] has committed its
    transaction, and the queue it leaves has the store of that
    commit. *)
Lemma updateJobStatus_yields_None id status message q :
  yields (updateJobStatus id status message q) None ->
  exists d',
    db_Update (updateJobStatus_fn id status message) (db q) = (Ok tt, d') /\
    db (queue_of (updateJobStatus id status message q)) = d'.
Proof.
  intros Hy.
  destruct (updateJobStatus_cases id status message q)
    as (r & d' & Hup & [(Hs & He & Hsig)|[Hn Heq]]).
  - exists d'. destruct r as [[]|e]; [|discriminate].
    split; [assumption|].
    apply Signals_queue_of in Hsig as [[c ->] _]. reflexivity.
  - rewrite Heq in *. inversion Hy as [a q0 Ha|]; subst.
    destruct r as [[]|e]; [|discriminate].
    exists d'. auto.
Qed.

Lemma updateJobStatus_db id status message q :
  exists r,
    db_Update (updateJobStatus_fn id status message) (db q) =
      (r, db (queue_of (updateJobStatus id status message q))) /\
    yields (updateJobStatus id status message q) (err_of r).
Proof.
  destruct (updateJobStatus_cases id status message q)
    as (r & d' & Hup & [(Hs & He & Hsig)|[Hn Heq]]); exists r.
  - apply Signals_queue_of in Hsig as [[c ->] Hy]. rewrite He. auto.
  - rewrite Heq. simpl. split; [assumption|constructor].
Qed.

(** C3.  [updateJobStatus id status message] on a stored [id]: a call
    that ends without error has written back the fetched record, under
    the ID it carries (which is [id] on a store that keeps every record
    under its own ID), with [Status] and [Message] set to the arguments
    and [RetryCount] one higher if and only if [status] is [Nack]; a
    call that ends in an error leaves the store as it was; on an open
    store that the environment does not fail, the call ends without
    error.  The call sends [id] on the notification channel exactly
    when [status] is [Nack] and the write succeeded; otherwise it
    returns with the channel untouched. *)
Theorem updateJobStatus_correct id status message q v :
  entries (db q) !! id = Some v ->
  let job := DecodeJob v in
  exists err d',
    closed d' = closed (db q) /\
    (err = None ->
       entries d' =
         <[ID job := Bytes (marked status message job)]> (entries (db q))) /\
    (err <> None -> entries d' = entries (db q)) /\
    (closed (db q) = false -> quiet 3 (faults (db q)) -> err = None) /\
    (status = Nack -> err = None ->
       Signals id err (set_db d' q) (updateJobStatus id status message q)) /\
    (status <> Nack \/ err <> None ->
       updateJobStatus id status message q = Returns err (set_db d' q)) /\
    Status (marked status message job) = status /\
    Message (marked status message job) = message /\
    (status = Nack ->
       RetryCount (marked status message job) = S (RetryCount job)) /\
    (status <> Nack ->
       RetryCount (marked status message job) = RetryCount job) /\
    (store_wf (db q) -> ID job = id).
Proof.
  intros Hv job.
  destruct (updateJobStatus_cases id status message q)
    as (r & d' & Hup & Hcases).
  exists (err_of r), d'.
  pose proof (updateJobStatus_tx _ _ _ _ _ _ Hup) as [Hc Htx].
  split; [assumption|].
  split.
  { intros He. destruct Htx as [(e & -> & _)|(v0 & _ & _ & Hv0 & ->)];
      [discriminate|].
    rewrite Hv in Hv0. injection Hv0 as <-. reflexivity. }
  split.
  { intros He. destruct Htx as [(e & _ & ->)|(v0 & -> & _)];
      [reflexivity|]. contradiction. }
  split.
  { intros Hopen Hq.
    destruct (updateJobStatus_tx_quiet id status message (db q) v 0
                Hopen Hv Hq) as (fs & _ & Heq).
    rewrite Heq in Hup. injection Hup as <- _. reflexivity. }
  split.
  { intros Hs He. destruct Hcases as [(_ & _ & Hsig)|[[Hn|Hn] _]];
      [|contradiction..].
    rewrite He. assumption. }
  split.
  { intros Hn. destruct Hcases as [(Hs & He & _)|[_ Heq]];
      [|assumption].
    destruct Hn; contradiction. }
  unfold marked. simpl.
  repeat split; intros; try (apply (H _ _ Hv));
    destruct (decide (status = Nack)); congruence.
Qed.

(** C10.  A call of [updateJobStatus] that returns [nil], on a store
    that keeps every record under its own ID: the record of [id] keeps
    its [ID] and its [Data], has the given [Status] and [Message], has
    its [RetryCount] raised by one for [Nack] and unchanged otherwise,
    and every other key of the store holds what it held. *)
Theorem updateJobStatus_frame id status message q :
  store_wf (db q) ->
  yields (updateJobStatus id status message q) None ->
  let q' := queue_of (updateJobStatus id status message q) in
  exists v v',
    entries (db q) !! id = Some v /\
    entries (db q') !! id = Some v' /\
    ID (DecodeJob v') = ID (DecodeJob v) /\
    Data (DecodeJob v') = Data (DecodeJob v) /\
    Status (DecodeJob v') = status /\
    Message (DecodeJob v') = message /\
    RetryCount (DecodeJob v') =
      (if decide (status = Nack) then S (RetryCount (DecodeJob v))
       else RetryCount (DecodeJob v)) /\
    (forall k, k <> id -> entries (db q') !! k = entries (db q) !! k).
Proof.
  intros Hwf Hy q'.
  destruct (updateJobStatus_yields_None _ _ _ _ Hy) as (d' & Hup & Hd).
  apply updateJobStatus_tx in Hup
    as [_ [(e & [=] & _)|(v & _ & _ & Hv & Hent)]].
  pose proof (Hwf _ _ Hv) as Hid.
  exists v, (Bytes (marked status message (DecodeJob v))).
  rewrite Hid in Hent. subst q'. rewrite Hd, Hent.
  split; [assumption|].
  split; [apply lookup_insert_eq|].
  rewrite DecodeJob_Bytes. simpl.
  do 5 (split; [reflexivity|]).
  intros k Hk. apply lookup_insert_ne. congruence.
Qed.

(** *** [PushJob], [PushBytes] and [GetJobByID] *)

Lemma tx_Put_tx key value d r d' :
  db_Update (tx_Put key value) d = (r, d') ->
  closed d' = closed d /\
  ((exists e, r = Err e /\ entries d' = entries d) \/
   (r = Ok tt /\ closed d = false /\
    entries d' = <[key := value]> (entries d))).
Proof.
  intros H. apply db_Update_inv in H as [Hc [H|H]]; (split; [assumption|]).
  - left. assumption.
  - destruct H as (a & tx' & -> & Hcl & H1 & H2 & H3).
    destruct (tx_Put key value _) as [r1 tx1] eqn:Hfn.
    simpl in *. subst r1 tx1.
    apply tx_op_inv in Hfn as [(e & [=] & _)|[_ Hp]].
    right. destruct a. simpl in Hp. rewrite H3, Hp. auto.
Qed.

Lemma tx_Put_tx_quiet key value d n :
  closed d = false ->
  quiet (S (S n)) (faults d) ->
  exists fs, quiet n fs /\
    db_Update (tx_Put key value) d =
      (Ok tt, mkDB (<[key := value]> (entries d)) false fs).
Proof.
  intros Hc Hq.
  destruct (tx_op_quiet (fun m => (Ok tt, <[key := value]> m)) (S n)
              (mkTx (entries d) (faults d)) Hq) as (fs1 & Hq1 & Hfn).
  simpl in Hfn.
  destruct (db_Update_quiet (tx_Put key value) d tt _ n Hc Hfn Hq1)
    as (fs & Hq2 & ->).
  exists fs. auto.
Qed.

(** The ways [PushJob] ends: on a closed store, before anything is
    drawn; or by the result of its transaction. *)
Lemma PushJob_cases j q :
  (closed (db q) = true /\ PushJob j q = Returns (j, Err ErrDBClosed) q) \/
  (closed (db q) = false /\
   exists r d',
     let id := NewV4 (entropy q) in
     let q1 := set_db d' (set_entropy (S (entropy q)) q) in
     db_Update (tx_Put id (Bytes (set_ID id j))) (db q) = (r, d') /\
     match r with
     | Err e => PushJob j q = Returns (set_ID id j, Err e) q1
     | Ok _ => Signals id (set_ID id j, Ok id) q1 (PushJob j q)
     end).
Proof.
  unfold PushJob, db_Update, db_Begin.
  destruct (closed (db q)) eqn:Hc; [left; auto|right].
  split; [reflexivity|]. simpl.
  destruct (db_End (db q) _) as [r d'] eqn:Hend.
  exists r, d'. split; [reflexivity|].
  destruct r as [[]|e]; [|reflexivity].
  apply send_Signals.
Qed.

Lemma GetJobByID_quiet id q :
  closed (db q) = false ->
  quiet 1 (faults (db q)) ->
  exists fs,
    GetJobByID id q =
      (match entries (db q) !! id with
       | Some v => Ok (DecodeJob v)
       | None => Err ErrNotFound
       end,
       set_db (mkDB (entries (db q)) false fs) q).
Proof.
  intros Hc Hq. unfold GetJobByID, db_View, db_Begin, tx_bind, tx_Get.
  rewrite Hc.
  match goal with |- context [tx_op ?f ?t] =>
    destruct (tx_op_quiet f 0 t Hq) as (fs & _ & ->) end.
  simpl. exists fs.
  destruct (entries (db q) !! id); reflexivity.
Qed.

(** A call of [PushJob] that returns an ID has committed the record
    of the job under the UUID it drew. *)
Lemma PushJob_yields_Ok j q j' id :
  yields (PushJob j q) (j', Ok id) ->
  id = NewV4 (entropy q) /\ j' = set_ID id j /\
  closed (db q) = false /\
  entropy (queue_of (PushJob j q)) = S (entropy q) /\
  closed (db (queue_of (PushJob j q))) = false /\
  entries (db (queue_of (PushJob j q))) =
    <[id := Bytes j']> (entries (db q)).
Proof.
  intros Hy.
  destruct (PushJob_cases j q) as [[Hc Heq]|(Hc & r & d' & Hup & Hr)].
  - rewrite Heq in Hy. inversion Hy.
  - simpl in Hr. destruct r as [[]|e].
    + pose proof (Signals_queue_of _ _ _ _ Hr) as [[c Hq] Hy'].
      pose proof (yields_inj _ _ _ Hy Hy') as [= -> ->].
      apply tx_Put_tx in Hup as [Hcl [(e & [=] & _)|(_ & _ & Hent)]].
      rewrite Hq. simpl. rewrite Hcl, Hc.
      repeat (split; [reflexivity|]). assumption.
    + rewrite Hr in Hy. inversion Hy.
Qed.

(** C1, as the code has it.  A call of [PushJob] that returns an ID:
    the ID is the UUID drawn by this call, which is no key of the
    store when no UUID still to be drawn is one, and which no later
    draw repeats; the job comes back with that ID and with the
    [Status], [RetryCount], [Data] and [Message] the caller passed;
    and the store holds this record under the new ID, everything else
    being kept, by the time the call returns or is parked on the
    notification. *)
Theorem PushJob_persists j q j' id :
  uuid_fresh q ->
  yields (PushJob j q) (j', Ok id) ->
  let q' := queue_of (PushJob j q) in
  id = NewV4 (entropy q) /\
  entries (db q) !! id = None /\
  ID j' = id /\
  Status j' = Status j /\
  RetryCount j' = RetryCount j /\
  Data j' = Data j /\
  Message j' = Message j /\
  entries (db q') = <[id := Bytes j']> (entries (db q)) /\
  DecodeJob <$> (entries (db q') !! id) = Some j' /\
  uuid_fresh q'.
Proof.
  intros Hfresh Hy q'.
  destruct (PushJob_yields_Ok _ _ _ _ Hy)
    as (Hid & Hj & Hc & Hen & Hc' & Hent).
  subst q'. split; [assumption|].
  split; [subst id; apply Hfresh; lia|].
  subst j'. simpl. do 5 (split; [reflexivity|]).
  split; [assumption|].
  split; [rewrite Hent, lookup_insert_eq; simpl;
          rewrite DecodeJob_Bytes; reflexivity|].
  intros n Hn. rewrite Hen in Hn. rewrite Hent.
  rewrite lookup_insert_ne.
  - apply Hfresh. lia.
  - subst id. intros Heq. apply NewV4_inj in Heq. lia.
Qed.

(** C2.  [PushJob] ends by the result of its transaction, which
    commits on an open store that does what it is asked: when the
    transaction fails, the call returns that error, nothing is sent
    on the notification channel and the store keeps its entries; when
    the transaction commits, the record is in the store and the call
    sends the new ID, and nothing else, on the channel before it
    returns that ID. *)
Theorem PushJob_commit_then_signal j q :
  let id := NewV4 (entropy q) in
  exists r d',
    db_Update (tx_Put id (Bytes (set_ID id j))) (db q) = (r, d') /\
    (closed (db q) = false -> quiet 2 (faults (db q)) -> r = Ok tt) /\
    match r with
    | Err e =>
        exists j' q1,
          PushJob j q = Returns (j', Err e) q1 /\
          db q1 = d' /\
          notifier q1 = notifier q /\
          entries d' = entries (db q)
    | Ok _ =>
        exists q1,
          Signals id (set_ID id j, Ok id) q1 (PushJob j q) /\
          db q1 = d' /\
          notifier q1 = notifier q /\
          entries d' = <[id := Bytes (set_ID id j)]> (entries (db q))
    end.
Proof.
  intros id.
  destruct (PushJob_cases j q) as [[Hc Heq]|(Hc & r & d' & Hup & Hr)].
  - exists (Err ErrDBClosed), (db q).
    split; [unfold db_Update, db_Begin; rewrite Hc; reflexivity|].
    split; [congruence|].
    exists j, q. auto.
  - exists r, d'. split; [assumption|]. simpl in Hr.
    split.
    { intros _ Hq.
      destruct (tx_Put_tx_quiet (NewV4 (entropy q))
                  (Bytes (set_ID (NewV4 (entropy q)) j)) (db q) 0 Hc Hq)
        as (fs & _ & Hok).
      rewrite Hok in Hup. injection Hup as <- _. reflexivity. }
    apply tx_Put_tx in Hup as [_ [(e & -> & He)|(-> & _ & He)]].
    + eexists _, _. split; [eassumption|]. auto.
    + eexists. split; [eassumption|]. auto.
Qed.

(** C8.  After a call of [PushBytes d] that has returned [id], and
    with nothing done on the queue since, [GetJobByID id] returns a
    job with [Status] [Uack], [RetryCount] 0 and [Data] [d]; and on an
    open store, [GetJobByID] of a key that is not in the store returns
    the not-found error.  The store does what it is asked in both. *)
Theorem PushBytes_GetJobByID :
  (forall d q j' id q',
     PushBytes d q = Returns (j', Ok id) q' ->
     quiet 1 (faults (db q')) ->
     exists job q'',
       GetJobByID id q' = (Ok job, q'') /\
       Status job = Uack /\ RetryCount job = 0 /\ Data job = d /\
       ID job = id) /\
  (forall id q,
     entries (db q) !! id = None ->
     closed (db q) = false ->
     quiet 1 (faults (db q)) ->
     exists q', GetJobByID id q = (Err ErrNotFound, q')).
Proof.
  split.
  - intros d q j' id q' Hpush Hq.
    assert (Hy : yields (PushJob (mkJob Uack [] d "" 0) q) (j', Ok id)).
    { unfold PushBytes in Hpush. rewrite Hpush. constructor. }
    apply PushJob_yields_Ok in Hy as (Hid & Hj & _ & _ & Hc & Hent).
    unfold PushBytes in Hpush. rewrite Hpush in Hc, Hent. simpl in Hc, Hent.
    destruct (GetJobByID_quiet id q' Hc Hq) as (fs & Hget).
    rewrite Hent, lookup_insert_eq, DecodeJob_Bytes in Hget.
    eexists _, _. split; [exact Hget|].
    subst j'. simpl. auto.
  - intros id q Hnone Hc Hq.
    destruct (GetJobByID_quiet id q Hc Hq) as (fs & Hget).
    rewrite Hnone in Hget. eauto.
Qed.

(** *** [processJobs] and [Init] *)

(** What the loop of [processJobs] leaves of a bucket. *)
Definition purge (es : list (bytes * bytes)) (m : gmap bytes bytes)
  : gmap bytes bytes :=
  foldl (fun m e =>
           if terminal (Status (DecodeJob (snd e)))
           then delete (ID (DecodeJob (snd e))) m else m) m es.

Lemma processJobs_loop_inv es tx tx' :
  processJobs_loop es tx = (Ok tt, tx') ->
  pending tx' = purge es (pending tx).
Proof.
  revert tx. induction es as [|e es IH]; intros tx; simpl.
  - intros [= <-]. reflexivity.
  - destruct (Status (DecodeJob (snd e))); simpl; try apply IH;
      unfold tx_bind, tx_Delete;
      destruct (tx_op _ tx) as [[[]|err] tx1] eqn:Hop; try discriminate;
      apply tx_op_inv in Hop as [(err & [=] & _)|[_ Hp]];
      simpl in Hp; rewrite <- Hp; apply IH.
Qed.

Lemma processJobs_loop_quiet es tx n :
  quiet (length es + n) (tx_faults tx) ->
  exists fs, quiet n fs /\
    processJobs_loop es tx = (Ok tt, mkTx (purge es (pending tx)) fs).
Proof.
  revert tx. induction es as [|e es IH]; intros tx Hq; simpl in *.
  - exists (tx_faults tx). split; [assumption|]. destruct tx; reflexivity.
  - assert (Hskip : exists fs, quiet n fs /\
              processJobs_loop es tx = (Ok tt, mkTx (purge es (pending tx)) fs)).
    { destruct (IH tx) as (fs & Hfs & Heq); [|eauto].
      eapply quiet_le; [|exact Hq]. lia. }
    assert (Hdel : exists fs, quiet n fs /\
              tx_bind (tx_Delete (ID (DecodeJob (snd e))))
                      (fun _ => processJobs_loop es) tx =
              (Ok tt,
               mkTx (purge es (delete (ID (DecodeJob (snd e))) (pending tx)))
                    fs)).
    { unfold tx_bind, tx_Delete.
      match goal with |- context [tx_op ?f ?t] =>
        destruct (tx_op_quiet f _ t Hq) as (fs1 & Hq1 & ->) end.
      simpl. apply (IH (mkTx _ fs1)). assumption. }
    destruct (Status (DecodeJob (snd e))); simpl; assumption.
Qed.

Lemma purge_lookup es m k :
  purge es m !! k =
    if decide (Exists (fun e => terminal (Status (DecodeJob (snd e))) = true
                                /\ ID (DecodeJob (snd e)) = k) es)
    then None else m !! k.
Proof.
  revert m. induction es as [|e es IH]; intros m.
  - rewrite decide_False by (intros H; inversion H). reflexivity.
  - change (purge (e :: es) m) with
      (purge es (if terminal (Status (DecodeJob (snd e)))
                 then delete (ID (DecodeJob (snd e))) m else m)).
    rewrite IH.
    destruct (decide (Exists _ es)) as [H|H].
    + rewrite decide_True by (right; assumption). reflexivity.
    + destruct (terminal (Status (DecodeJob (snd e)))) eqn:Ht.
      * destruct (decide (ID (DecodeJob (snd e)) = k)) as [Hk|Hk].
        -- rewrite decide_True by (left; auto). subst k.
           apply lookup_delete_eq.
        -- rewrite decide_False.
           ++ apply lookup_delete_ne. assumption.
           ++ intros Hex. apply Exists_cons in Hex as [[_ Hex]|Hex];
                contradiction.
      * rewrite decide_False; [reflexivity|].
        intros Hex. apply Exists_cons in Hex as [[Hex _]|Hex];
          [congruence|contradiction].
Qed.

(** On a store that keeps every record under its own ID, a sweep over
    all the entries keeps the records that are not terminal. *)
Lemma purge_map_to_list (m : gmap bytes bytes) :
  (forall k v, m !! k = Some v -> ID (DecodeJob v) = k) ->
  purge (map_to_list m) m =
    filter (fun kv => terminal (Status (DecodeJob (snd kv))) = false) m.
Proof.
  intros Hwf. apply map_eq. intros k. rewrite purge_lookup.
  destruct (decide (Exists _ (map_to_list m))) as [Hex|Hex].
  - apply Exists_exists in Hex as ([k' v] & Hin & Ht & Hk).
    apply elem_of_map_to_list in Hin. simpl in *.
    rewrite (Hwf _ _ Hin) in Hk. subst k'.
    symmetry. apply map_lookup_filter_None. right.
    intros v' Hv'. rewrite Hin in Hv'. injection Hv' as <-. simpl.
    congruence.
  - destruct (m !! k) as [v|] eqn:Hv.
    + symmetry. apply map_lookup_filter_Some. split; [assumption|]. simpl.
      destruct (terminal (Status (DecodeJob v))) eqn:Ht; [|reflexivity].
      exfalso. apply Hex. apply Exists_exists. exists (k, v).
      split; [apply elem_of_map_to_list; assumption|]. simpl. auto.
    + symmetry. apply map_lookup_filter_None. left. assumption.
Qed.

(** What the transaction of [processJobs] does to the store. *)
Lemma processJobs_tx d r d' :
  db_Update (tx_bind tx_GetAll processJobs_loop) d = (r, d') ->
  closed d' = closed d /\
  ((exists e, r = Err e /\ entries d' = entries d) \/
   (r = Ok tt /\ closed d = false /\
    entries d' = purge (map_to_list (entries d)) (entries d))).
Proof.
  intros H. apply db_Update_inv in H as [Hc [H|H]]; (split; [assumption|]).
  - left. assumption.
  - destruct H as (a & tx' & -> & Hcl & H1 & H2 & H3).
    right. destruct a. split; [reflexivity|]. split; [assumption|].
    rewrite H3. subst tx'. revert H1.
    unfold tx_bind, tx_GetAll.
    destruct (tx_op _ _) as [[es|e] tx1] eqn:Hop; [|discriminate].
    apply tx_op_inv in Hop as [(err & [=] & _)|[Hes Hp]].
    simpl in Hes, Hp. injection Hes as ->.
    destruct (processJobs_loop _ tx1) as [r2 tx2] eqn:Hloop. simpl.
    intros ->. apply processJobs_loop_inv in Hloop.
    rewrite Hloop, Hp. reflexivity.
Qed.

Lemma processJobs_tx_quiet d :
  closed d = false ->
  quiet (size (entries d) + 2) (faults d) ->
  exists fs,
    db_Update (tx_bind tx_GetAll processJobs_loop) d =
      (Ok tt, mkDB (purge (map_to_list (entries d)) (entries d)) false fs).
Proof.
  intros Hc Hq.
  assert (Hfn : exists fs, quiet 1 fs /\
            tx_bind tx_GetAll processJobs_loop
              (mkTx (entries d) (faults d)) =
            (Ok tt,
             mkTx (purge (map_to_list (entries d)) (entries d)) fs)).
  { unfold tx_bind, tx_GetAll.
    replace (size (entries d) + 2) with (S (size (entries d) + 1)) in Hq
      by lia.
    match goal with |- context [tx_op ?f ?t] =>
      destruct (tx_op_quiet f _ t Hq) as (fs1 & Hq1 & ->) end.
    simpl. apply (processJobs_loop_quiet _ (mkTx _ fs1)). simpl.
    rewrite length_map_to_list. assumption. }
  destruct Hfn as (fs1 & Hq1 & Hfn).
  destruct (db_Update_quiet _ d tt _ 0 Hc Hfn Hq1) as (fs & _ & ->).
  eauto.
Qed.

Lemma purge_subseteq (es : list (bytes * bytes)) (m : gmap bytes bytes)
    (k v : bytes) :
  purge es m !! k = Some v -> m !! k = Some v.
Proof. rewrite purge_lookup. case_decide; [discriminate|auto]. Qed.

(** C5.  The sweep [Init] runs on the store it has opened, a store
    that keeps every record under its own ID: the queue comes back
    with an empty notification channel, so nothing is enqueued again;
    every record whose [Status] is [Uack] or [Nack] is still in the
    store, as it was; nothing is added to the store; and when the
    store is open and does what it is asked, the records left are
    exactly those that are not [Ack] or [Failed]. *)
Theorem Init_sweep filepath d seed :
  store_wf d ->
  exists q,
    Init filepath (Ok d) seed = Ok q /\
    notifier q = Some [] /\
    (forall k v, entries d !! k = Some v ->
       Status (DecodeJob v) = Uack \/ Status (DecodeJob v) = Nack ->
       entries (db q) !! k = Some v) /\
    (forall k v, entries (db q) !! k = Some v -> entries d !! k = Some v) /\
    (closed d = false ->
     quiet (size (entries d) + 2) (faults d) ->
     forall k,
       entries (db q) !! k =
         match entries d !! k with
         | Some v =>
             match Status (DecodeJob v) with
             | Ack | Failed => None
             | Uack | Nack => Some v
             end
         | None => None
         end).
Proof.
  intros Hwf. unfold Init, processJobs. simpl.
  destruct (db_Update _ d) as [r d'] eqn:Hup.
  eexists. split; [reflexivity|]. simpl. split; [reflexivity|].
  pose proof (processJobs_tx _ _ _ Hup) as [_ Htx].
  assert (Hkeep : forall k v, entries d !! k = Some v ->
            terminal (Status (DecodeJob v)) = false ->
            purge (map_to_list (entries d)) (entries d) !! k = Some v).
  { intros k v Hv Ht. rewrite purge_map_to_list by exact Hwf.
    apply map_lookup_filter_Some. auto. }
  split.
  { intros k v Hv Hs.
    destruct Htx as [(e & _ & ->)|(_ & _ & ->)]; [assumption|].
    apply Hkeep; [assumption|]. destruct Hs as [-> | ->]; reflexivity. }
  split.
  { intros k v Hv.
    destruct Htx as [(e & _ & He)|(_ & _ & He)]; rewrite He in Hv;
      [assumption|].
    eapply purge_subseteq, Hv. }
  intros Hc Hq k.
  destruct (processJobs_tx_quiet d Hc Hq) as (fs & Heq).
  rewrite Heq in Hup. injection Hup as _ <-. simpl.
  rewrite purge_map_to_list by exact Hwf.
  destruct (entries d !! k) as [v|] eqn:Hv.
  - destruct (Status (DecodeJob v)) eqn:Hs.
    + apply map_lookup_filter_None. right. intros v' Hv'. simpl.
      rewrite Hv in Hv'. injection Hv' as <-. rewrite Hs. discriminate.
    + apply map_lookup_filter_Some. simpl. rewrite Hs. auto.
    + apply map_lookup_filter_Some. simpl. rewrite Hs. auto.
    + apply map_lookup_filter_None. right. intros v' Hv'. simpl.
      rewrite Hv in Hv'. injection Hv' as <-. rewrite Hs. discriminate.
  - apply map_lookup_filter_None. left. assumption.
Qed.

(** *** The dispatch loop *)

(** A call of [updateJobStatus] with a status other than [Nack]
    returns without a send. *)
Lemma updateJobStatus_no_signal id status message q :
  status <> Nack ->
  exists r d',
    db_Update (updateJobStatus_fn id status message) (db q) = (r, d') /\
    updateJobStatus id status message q = Returns (err_of r) (set_db d' q).
Proof.
  intros Hs.
  destruct (updateJobStatus_cases id status message q)
    as (r & d' & Hup & [(Hn & _)|[_ Heq]]); [contradiction|eauto].
Qed.

(** C7.  The dispatch loop with a job ID it has received, when the
    marking as [Uack] with the pickup message returns an error: the
    loop goes on to its next round, not to the call of [DoWork]; the
    notification channel is as the receipt left it, the ID has not
    gone back in; and the store keeps its entries. *)
Theorem dispatch_receive_mark_fails w jobID q e :
  yields (updateJobStatus jobID Uack
            (String.append "Picked up by " (WorkerID w)) q) (Some e) ->
  exists q',
    dispatch_receive w jobID q = Returns Continue q' /\
    notifier q' = notifier q /\
    entries (db q') = entries (db q).
Proof.
  intros Hy. unfold dispatch_receive.
  destruct (updateJobStatus_no_signal jobID Uack
              (String.append "Picked up by " (WorkerID w)) q)
    as (r & d' & Hup & Heq); [discriminate|].
  rewrite Heq in Hy |- *.
  assert (Herr : err_of r = Some e) by (inversion Hy; congruence).
  simpl. rewrite Herr. eexists. split; [reflexivity|]. simpl.
  split; [reflexivity|].
  apply updateJobStatus_tx in Hup as [_ [(e' & _ & He)|(v & -> & _)]];
    [assumption|discriminate].
Qed.

(** [dispatch_report] is one call of [updateJobStatus]. *)
Lemma dispatch_report_eq jobID err q :
  dispatch_report jobID err q =
    obind (updateJobStatus jobID
             (match err with
              | None => Ack
              | Some (RecoverableWorkerError _) => Nack
              | Some _ => Failed
              end)
             (match err with
              | None => "Complete"%string
              | Some e => Error e
              end) q)
          (fun _ q' => Returns tt q').
Proof. unfold dispatch_report. destruct err as [[]|]; reflexivity. Qed.

(** C6.  The dispatch loop once [DoWork] has returned [err]: what it
    does is the call of [updateJobStatus] with [Ack] and "Complete"
    for no error, with [Nack] and the text of the error for a
    recoverable error, with [Failed] and the text of the error for any
    other error; and when the record is in the store and the store is
    open and does what it is asked, the record of [jobID] has that
    [Status] and that [Message] afterwards. *)
Theorem dispatch_report_marks jobID err q :
  let status :=
    match err with
    | None => Ack
    | Some (RecoverableWorkerError _) => Nack
    | Some _ => Failed
    end in
  let message :=
    match err with
    | None => "Complete"%string
    | Some e => Error e
    end in
  dispatch_report jobID err q =
    obind (updateJobStatus jobID status message q)
          (fun _ q' => Returns tt q') /\
  (forall v,
     store_wf (db q) ->
     entries (db q) !! jobID = Some v ->
     closed (db q) = false ->
     quiet 3 (faults (db q)) ->
     exists v',
       entries (db (queue_of (dispatch_report jobID err q))) !! jobID
         = Some v' /\
       Status (DecodeJob v') = status /\
       Message (DecodeJob v') = message).
Proof.
  intros status message.
  assert (Heq : dispatch_report jobID err q =
            obind (updateJobStatus jobID status message q)
                  (fun _ q' => Returns tt q')).
  { subst status message. apply dispatch_report_eq. }
  split; [assumption|].
  intros v Hwf Hv Hc Hq.
  assert (Hdb : db (queue_of (dispatch_report jobID err q)) =
                db (queue_of (updateJobStatus jobID status message q))).
  { rewrite Heq.
    destruct (updateJobStatus jobID status message q); reflexivity. }
  rewrite Hdb.
  destruct (updateJobStatus_db jobID status message q) as (r & Hup & _).
  destruct (updateJobStatus_tx_quiet jobID status message (db q) v 0
              Hc Hv Hq) as (fs & _ & Hok).
  rewrite Hok in Hup. injection Hup as _ <-. simpl.
  rewrite (Hwf _ _ Hv), lookup_insert_eq.
  eexists. split; [reflexivity|].
  rewrite DecodeJob_Bytes. auto.
Qed.

(** *** The retry count across the operations of the engine *)

Inductive op : Type :=
  | OpPushJob (j : Job)
  | OpPushBytes (d : bytes)
  | OpGetJobByID (id : bytes)
  | OpUpdateJobStatus (id : bytes) (status : JobStatus) (message : string)
  | OpProcessJobs
  | OpDispatchReceive (w : Worker) (jobID : bytes)
  | OpDispatchReport (jobID : bytes) (err : option error).

(** The queue an operation leaves, returned or parked on its send. *)
Definition run (o : op) (q : Queue) : Queue :=
  match o with
  | OpPushJob j => queue_of (PushJob j q)
  | OpPushBytes d => queue_of (PushBytes d q)
  | OpGetJobByID id => snd (GetJobByID id q)
  | OpUpdateJobStatus id status message =>
      queue_of (updateJobStatus id status message q)
  | OpProcessJobs => snd (processJobs q)
  | OpDispatchReceive w jobID => queue_of (dispatch_receive w jobID q)
  | OpDispatchReport jobID err => queue_of (dispatch_report jobID err q)
  end.

(** The ID an operation marks as [Nack], if it marks one. *)
Definition nacks (o : op) : option bytes :=
  match o with
  | OpUpdateJobStatus id Nack _ => Some id
  | OpDispatchReport jobID (Some (RecoverableWorkerError _)) => Some jobID
  | _ => None
  end.

(** From [d] to [d'] every record stays, with its retry count, or with
    one more under a [Nack] status if it is the record of [nk]. *)
Definition retries_step (nk : option bytes) (d d' : DB) : Prop :=
  forall k v, entries d !! k = Some v ->
    exists v', entries d' !! k = Some v' /\
      (RetryCount (DecodeJob v') = RetryCount (DecodeJob v) \/
       (RetryCount (DecodeJob v') = S (RetryCount (DecodeJob v)) /\
        nk = Some k /\ Status (DecodeJob v') = Nack)).

Lemma retries_step_refl nk d d' :
  entries d' = entries d -> retries_step nk d d'.
Proof. intros He k v Hv. exists v. rewrite He. auto. Qed.

Lemma retries_step_trans d1 d2 d3 :
  retries_step None d1 d2 -> retries_step None d2 d3 ->
  retries_step None d1 d3.
Proof.
  intros H12 H23 k v Hv.
  destruct (H12 _ _ Hv) as (v2 & Hv2 & [E2|(_ & [=] & _)]).
  destruct (H23 _ _ Hv2) as (v3 & Hv3 & [E3|(_ & [=] & _)]).
  exists v3. split; [assumption|]. left. congruence.
Qed.

(** The queue [updateJobStatus] leaves: the store of its transaction,
    and else only the channel may differ. *)
Lemma updateJobStatus_queue_of id status message q :
  exists r d' c,
    db_Update (updateJobStatus_fn id status message) (db q) = (r, d') /\
    queue_of (updateJobStatus id status message q) =
      set_notifier c (set_db d' q).
Proof.
  destruct (updateJobStatus_cases id status message q)
    as (r & d' & Hup & [(Hs & He & Hsig)|[Hn Heq]]); exists r, d'.
  - apply Signals_queue_of in Hsig as [[c Hq] _]. eauto.
  - exists (notifier q). split; [assumption|]. rewrite Heq. simpl.
    destruct q; reflexivity.
Qed.

Lemma insert_wf (d d' : DB) job :
  store_wf d ->
  entries d' = <[ID job := Bytes job]> (entries d) ->
  store_wf d'.
Proof.
  intros Hwf He k v. rewrite He, lookup_insert. case_decide as Hk.
  - intros [= <-]. rewrite DecodeJob_Bytes. assumption.
  - apply Hwf.
Qed.

Lemma updateJobStatus_step id status message q :
  store_wf (db q) -> uuid_fresh q ->
  let q' := queue_of (updateJobStatus id status message q) in
  store_wf (db q') /\ uuid_fresh q' /\
  closed (db q') = closed (db q) /\
  retries_step (if decide (status = Nack) then Some id else None)
               (db q) (db q').
Proof.
  intros Hwf Hfresh q'.
  destruct (updateJobStatus_queue_of id status message q)
    as (r & d' & c & Hup & Hq).
  subst q'. rewrite Hq. simpl. unfold uuid_fresh. simpl.
  apply updateJobStatus_tx in Hup
    as [Hc [(e & _ & He)|(v & _ & _ & Hv & He)]].
  - split; [intros k v; rewrite He; apply Hwf|].
    split; [intros n Hn; rewrite He; apply Hfresh, Hn|].
    split; [assumption|]. apply retries_step_refl, He.
  - pose proof (Hwf _ _ Hv) as Hid.
    split.
    { apply (insert_wf (db q) d' (marked status message (DecodeJob v)) Hwf).
      exact He. }
    split.
    { intros n Hn. rewrite He, Hid. rewrite lookup_insert_ne.
      - apply Hfresh, Hn.
      - intros Heq. rewrite Heq, (Hfresh _ Hn) in Hv. discriminate. }
    split; [assumption|].
    intros k v0 Hv0. rewrite He, Hid, lookup_insert.
    case_decide as Hk.
    + subst k. rewrite Hv in Hv0. injection Hv0 as <-.
      eexists. split; [reflexivity|]. rewrite DecodeJob_Bytes. simpl.
      destruct (decide (status = Nack)); auto.
    + exists v0. auto.
Qed.

Lemma queue_of_obind_Returns {A B} (o : outcome A) (b : A -> B) :
  queue_of (obind o (fun a q' => Returns (b a) q')) = queue_of o.
Proof. destruct o; reflexivity. Qed.

Lemma PushJob_step j q :
  store_wf (db q) -> uuid_fresh q ->
  let q' := queue_of (PushJob j q) in
  store_wf (db q') /\ uuid_fresh q' /\ retries_step None (db q) (db q').
Proof.
  intros Hwf Hfresh q'. subst q'.
  destruct (PushJob_cases j q) as [[Hc Heq]|(Hc & r & d' & Hup & Hr)].
  - rewrite Heq. simpl.
    split; [assumption|]. split; [assumption|].
    apply retries_step_refl. reflexivity.
  - simpl in Hr.
    assert (Hq : exists c,
              queue_of (PushJob j q) =
              set_notifier c (set_db d' (set_entropy (S (entropy q)) q))).
    { destruct r as [[]|e].
      - apply Signals_queue_of in Hr as [Hq _]. exact Hq.
      - rewrite Hr. simpl. eexists (notifier q). reflexivity. }
    destruct Hq as [c ->]. unfold uuid_fresh. simpl.
    apply tx_Put_tx in Hup as [_ [(e & _ & He)|(_ & _ & He)]].
    + split; [intros k v; rewrite He; apply Hwf|].
      split; [intros n Hn; rewrite He; apply Hfresh; lia|].
      apply retries_step_refl, He.
    + split.
      { apply (insert_wf (db q) d' (set_ID (NewV4 (entropy q)) j) Hwf).
        exact He. }
      split.
      { intros n Hn. rewrite He, lookup_insert_ne.
        - apply Hfresh. lia.
        - intros Heq. apply NewV4_inj in Heq. lia. }
      intros k v Hv. exists v. split; [|auto].
      rewrite He, lookup_insert_ne; [assumption|].
      intros <-. rewrite Hfresh in Hv by lia. discriminate.
Qed.

Lemma GetJobByID_step id q :
  exists d,
    snd (GetJobByID id q) = set_db d q /\
    entries d = entries (db q) /\ closed d = closed (db q).
Proof.
  unfold GetJobByID.
  destruct (db_View _ (db q)) as [r d] eqn:Hv.
  apply db_View_inv in Hv as (Hc & He & _). exists d. auto.
Qed.

Lemma processJobs_step q :
  exists r d,
    processJobs q = (err_of r, set_db d q) /\
    db_Update (tx_bind tx_GetAll processJobs_loop) (db q) = (r, d).
Proof.
  unfold processJobs.
  destruct (db_Update _ (db q)) as [r d]. eauto.
Qed.

Lemma dispatch_receive_step w jobID q :
  store_wf (db q) -> uuid_fresh q ->
  let q' := queue_of (dispatch_receive w jobID q) in
  store_wf (db q') /\ uuid_fresh q' /\ retries_step None (db q) (db q').
Proof.
  intros Hwf Hfresh q'. subst q'. unfold dispatch_receive.
  pose proof (updateJobStatus_step jobID Uack
                (String.append "Picked up by " (WorkerID w)) q Hwf Hfresh)
    as H1.
  destruct (updateJobStatus_no_signal jobID Uack
              (String.append "Picked up by " (WorkerID w)) q)
    as (r & d' & _ & Heq); [discriminate|].
  rewrite Heq in H1 |- *. simpl in H1 |- *.
  destruct H1 as (Hwf1 & Hfresh1 & _ & Hr1).
  destruct (err_of r); [auto|].
  destruct (GetJobByID_step jobID (set_db d' q)) as (d2 & Hq2 & He2 & _).
  destruct (GetJobByID jobID (set_db d' q)) as [r2 q2]. simpl in Hq2.
  assert (Hwf2 : store_wf (db q2)).
  { subst q2. intros k v. simpl. rewrite He2. apply Hwf1. }
  assert (Hfresh2 : uuid_fresh q2).
  { subst q2. intros n Hn. simpl in *. rewrite He2. apply Hfresh1, Hn. }
  assert (Hr2 : retries_step None (db q) (db q2)).
  { eapply retries_step_trans; [exact Hr1|].
    apply retries_step_refl. subst q2. exact He2. }
  destruct r2 as [job|e]; [auto|].
  rewrite (queue_of_obind_Returns _ (fun _ => Continue)).
  pose proof (updateJobStatus_step jobID Failed (Error e) q2 Hwf2 Hfresh2)
    as (Hwf3 & Hfresh3 & _ & Hr3).
  split; [assumption|]. split; [assumption|].
  eapply retries_step_trans; eassumption.
Qed.

Lemma dispatch_report_as_update jobID err q :
  exists status message,
    queue_of (dispatch_report jobID err q) =
      queue_of (updateJobStatus jobID status message q) /\
    (if decide (status = Nack) then Some jobID else None) =
      nacks (OpDispatchReport jobID err).
Proof.
  unfold dispatch_report.
  destruct err as [[]|]; simpl;
    eexists _, _; (split; [apply (queue_of_obind_Returns _ (fun _ => tt))|]);
    reflexivity.
Qed.

Lemma nacks_update id status message :
  (if decide (status = Nack) then Some id else None) =
    nacks (OpUpdateJobStatus id status message).
Proof. destruct status; reflexivity. Qed.

(** The operations keep the store keyed by job ID and free of the
    UUIDs still to be drawn. *)
Lemma run_invariant o q :
  store_wf (db q) -> uuid_fresh q ->
  store_wf (db (run o q)) /\ uuid_fresh (run o q).
Proof.
  intros Hwf Hfresh.
  destruct o as [j|d|id|id status message| |w jobID|jobID err]; simpl.
  - destruct (PushJob_step j q Hwf Hfresh) as (H1 & H2 & _). auto.
  - destruct (PushJob_step (mkJob Uack [] d "" 0) q Hwf Hfresh)
      as (H1 & H2 & _). auto.
  - destruct (GetJobByID_step id q) as (d & -> & He & _).
    unfold store_wf, uuid_fresh. simpl. rewrite He. auto.
  - destruct (updateJobStatus_step id status message q Hwf Hfresh)
      as (H1 & H2 & _). auto.
  - destruct (processJobs_step q) as (r & d & -> & Hup).
    unfold store_wf, uuid_fresh. simpl.
    apply processJobs_tx in Hup as [_ [(e & _ & He)|(_ & _ & He)]];
      rewrite He; [auto|].
    split.
    + intros k v Hv. eapply Hwf, purge_subseteq, Hv.
    + intros n Hn.
      destruct (purge _ _ !! NewV4 n) as [v|] eqn:Hp; [|reflexivity].
      apply purge_subseteq in Hp. rewrite Hfresh in Hp by exact Hn.
      discriminate.
  - destruct (dispatch_receive_step w jobID q Hwf Hfresh) as (H1 & H2 & _).
    auto.
  - destruct (dispatch_report_as_update jobID err q)
      as (status & message & -> & _).
    destruct (updateJobStatus_step jobID status message q Hwf Hfresh)
      as (H1 & H2 & _). auto.
Qed.

(** So does [Init], and an empty store is keyed by job ID. *)
Lemma Init_invariant filepath d seed q :
  Init filepath (Ok d) seed = Ok q ->
  store_wf d -> (forall n, seed <= n -> entries d !! NewV4 n = None) ->
  store_wf (db q) /\ uuid_fresh q.
Proof.
  unfold Init. intros Hinit Hwf Hfresh.
  pose proof (run_invariant OpProcessJobs
                (mkQueue filepath d (Some []) [] [] 0 500000000 seed)
                Hwf Hfresh) as Hinv.
  simpl in Hinv. destruct (processJobs _) as [err q0].
  injection Hinit as <-. exact Hinv.
Qed.

(** C4.  One operation of the engine, on a store that keeps every
    record under its own ID and holds no UUID still to be drawn (both
    of which the operation maintains): a stored record is still there
    afterwards with the same retry count, or with exactly one more
    when the operation has marked this very record [Nack]; the only
    records to go are terminal ones, in the sweep.  And an operation
    that marks the record [Nack], on an open store that does what it
    is asked, raises the count by exactly one. *)
Theorem RetryCount_only_increases o q k v :
  store_wf (db q) ->
  uuid_fresh q ->
  entries (db q) !! k = Some v ->
  let q' := run o q in
  store_wf (db q') /\
  uuid_fresh q' /\
  match entries (db q') !! k with
  | Some v' =>
      RetryCount (DecodeJob v') = RetryCount (DecodeJob v) \/
      (RetryCount (DecodeJob v') = S (RetryCount (DecodeJob v)) /\
       nacks o = Some k /\ Status (DecodeJob v') = Nack)
  | None =>
      o = OpProcessJobs /\ terminal (Status (DecodeJob v)) = true
  end /\
  (nacks o = Some k ->
   closed (db q) = false ->
   quiet 3 (faults (db q)) ->
   exists v', entries (db q') !! k = Some v' /\
     RetryCount (DecodeJob v') = S (RetryCount (DecodeJob v))).
Proof.
  intros Hwf Hfresh Hv q'.
  assert (Hgen : forall nk,
            store_wf (db q') /\ uuid_fresh q' /\
            retries_step nk (db q) (db q') ->
            nk = nacks o ->
            store_wf (db q') /\ uuid_fresh q' /\
            match entries (db q') !! k with
            | Some v' =>
                RetryCount (DecodeJob v') = RetryCount (DecodeJob v) \/
                (RetryCount (DecodeJob v') = S (RetryCount (DecodeJob v)) /\
                 nacks o = Some k /\ Status (DecodeJob v') = Nack)
            | None =>
                o = OpProcessJobs /\ terminal (Status (DecodeJob v)) = true
            end).
  { intros nk (H1 & H2 & H3) ->.
    split; [assumption|]. split; [assumption|].
    destruct (H3 _ _ Hv) as (v' & -> & Hrc). exact Hrc. }
  assert (Hupd : forall id status message,
            q' = queue_of (updateJobStatus id status message q) ->
            (if decide (status = Nack) then Some id else None) = Some k ->
            closed (db q) = false ->
            quiet 3 (faults (db q)) ->
            exists v', entries (db q') !! k = Some v' /\
              RetryCount (DecodeJob v') = S (RetryCount (DecodeJob v))).
  { intros id status message Hq' Hn Hc Hq.
    destruct (decide (status = Nack)) as [->|]; [|discriminate].
    injection Hn as ->.
    destruct (updateJobStatus_queue_of k Nack message q)
      as (r & d' & c & Hup & Hqo).
    destruct (updateJobStatus_tx_quiet k Nack message (db q) v 0
                Hc Hv Hq) as (fs & _ & Hok).
    rewrite Hok in Hup. injection Hup as _ <-.
    rewrite Hq', Hqo. simpl.
    rewrite (Hwf _ _ Hv), lookup_insert_eq.
    eexists. split; [reflexivity|]. rewrite DecodeJob_Bytes. reflexivity. }
  destruct o as [j|d|id|id status message| |w jobID|jobID err];
    simpl in q'.
  - split_and!; try apply (Hgen None); try apply PushJob_step; auto.
    intros [=].
  - split_and!; try apply (Hgen None); try apply PushJob_step; auto.
    intros [=].
  - destruct (GetJobByID_step id q) as (d & Hq & He & _).
    assert (Hs : store_wf (db q') /\ uuid_fresh q' /\
                 retries_step None (db q) (db q')).
    { subst q'. rewrite Hq. unfold uuid_fresh, store_wf. simpl.
      rewrite He. split_and!; [exact Hwf|exact Hfresh|].
      apply retries_step_refl. assumption. }
    split_and!; try apply (Hgen None); auto. intros [=].
  - pose proof (updateJobStatus_step id status message q Hwf Hfresh)
      as (H1 & H2 & _ & H3).
    split_and!;
      try apply (Hgen (if decide (status = Nack) then Some id else None));
      auto using nacks_update.
    intros Hn. apply (Hupd id status message); [reflexivity|].
    rewrite (nacks_update id status message). exact Hn.
  - destruct (processJobs_step q) as (r & d & Hp & Hup).
    clear Hgen Hupd. subst q'. rewrite Hp.
    unfold uuid_fresh, store_wf. simpl.
    apply processJobs_tx in Hup as [_ [(e & _ & He)|(_ & _ & He)]];
      rewrite He.
    + split_and!; [exact Hwf|exact Hfresh| |intros [=]].
      rewrite Hv. auto.
    + split_and!.
      * intros k' v' Hv'. eapply Hwf, purge_subseteq, Hv'.
      * intros n Hn.
        destruct (purge _ _ !! NewV4 n) as [v'|] eqn:Hp'; [|reflexivity].
        apply purge_subseteq in Hp'. rewrite Hfresh in Hp' by exact Hn.
        discriminate.
      * destruct (purge _ _ !! k) as [v'|] eqn:Hp'.
        -- apply purge_subseteq in Hp'. left. congruence.
        -- split; [reflexivity|].
           rewrite purge_map_to_list in Hp' by exact Hwf.
           apply map_lookup_filter_None in Hp' as [Hp'|Hp'];
             [congruence|].
           specialize (Hp' _ Hv). simpl in Hp'.
           destruct (terminal (Status (DecodeJob v))); congruence.
      * intros [=].
  - split_and!; try apply (Hgen None);
      try apply dispatch_receive_step; auto.
    intros [=].
  - destruct (dispatch_report_as_update jobID err q)
      as (status & message & Hq & Hn).
    pose proof (updateJobStatus_step jobID status message q Hwf Hfresh)
      as (H1 & H2 & _ & H3).
    rewrite <- Hq in H1, H2, H3.
    split_and!;
      try apply (Hgen (if decide (status = Nack) then Some jobID else None));
      auto.
    intros Hk. apply (Hupd jobID status message);
      [exact Hq|]. rewrite Hn. exact Hk.
Qed.

End EngineProperties.

(** ** Properties of the goroutines *)

(** 1 for a loop that has not exited. *)
Definition live (pc : LoopPC) : Z :=
  match pc with
  | Exited => 0
  | _ => 1
  end.

Definition live_count (ls : list Loop) : Z :=
  foldr (fun l n => (live (loop_pc l) + n)%Z) 0%Z ls.

(** A parked loop has nothing left to do after its send but to go to
    its next round. *)
Definition pc_ok (pc : LoopPC) : Prop :=
  match pc with
  | Parked _ k => forall q, k q = Returns tt q
  | _ => True
  end.

(** What no operation of the engine touches. *)
Definition frame (q q' : Queue) : Prop :=
  wg q' = wg q /\ shutdownFuncs q' = shutdownFuncs q /\
  closed (db q') = closed (db q).

Lemma frame_refl q : frame q q.
Proof. repeat split. Qed.

Lemma live_nonneg pc : (0 <= live pc)%Z.
Proof. destruct pc; simpl; lia. Qed.

Lemma live_count_nonneg ls : (0 <= live_count ls)%Z.
Proof.
  induction ls as [|l ls IH]; simpl; [lia|].
  pose proof (live_nonneg (loop_pc l)). lia.
Qed.

Lemma live_count_app ls ls' :
  live_count (ls ++ ls') = (live_count ls + live_count ls')%Z.
Proof. induction ls as [|l ls IH]; simpl; lia. Qed.

Lemma live_count_insert ls i l pc :
  ls !! i = Some l ->
  live_count (<[i := set_pc pc l]> ls) =
    (live_count ls - live (loop_pc l) + live pc)%Z.
Proof.
  revert i. induction ls as [|l0 ls IH]; intros [|i]; simpl; try discriminate.
  - intros [= ->]. lia.
  - intros H. rewrite (IH _ H). lia.
Qed.

Lemma live_count_zero ls :
  live_count ls = 0%Z -> Forall (fun l => loop_pc l = Exited) ls.
Proof.
  induction ls as [|l ls IH]; simpl; intros H; constructor.
  - pose proof (live_count_nonneg ls).
    destruct (loop_pc l); simpl in H; try lia. reflexivity.
  - apply IH. pose proof (live_count_nonneg ls).
    pose proof (live_nonneg (loop_pc l)). lia.
Qed.

Lemma settle_queue_of o : fst (settle o) = queue_of o.
Proof. destruct o; reflexivity. Qed.

Section GoroutineProperties.

Context `{codec : JobCodec} `{uuids : UuidSource}.

Lemma updateJobStatus_keeps_frame id status message q :
  frame q (queue_of (updateJobStatus id status message q)).
Proof.
  destruct (updateJobStatus_queue_of id status message q)
    as (r & d' & c & Hup & ->).
  apply updateJobStatus_tx in Hup as [Hc _].
  repeat split. exact Hc.
Qed.

Lemma PushJob_keeps_frame j q : frame q (queue_of (PushJob j q)).
Proof.
  destruct (PushJob_cases j q) as [[Hc ->]|(Hc & r & d' & Hup & Hr)];
    [apply frame_refl|].
  simpl in Hr. apply tx_Put_tx in Hup as [Hcl _].
  destruct r as [[]|e].
  - apply Signals_queue_of in Hr as [[c ->] _]. repeat split. exact Hcl.
  - rewrite Hr. repeat split. exact Hcl.
Qed.

Lemma GetJobByID_keeps_frame id q : frame q (snd (GetJobByID id q)).
Proof.
  destruct (GetJobByID_step id q) as (d & -> & _ & Hc).
  repeat split. exact Hc.
Qed.

Lemma dispatch_report_keeps_frame jobID err q :
  frame q (queue_of (dispatch_report jobID err q)).
Proof.
  destruct (dispatch_report_as_update jobID err q)
    as (status & message & -> & _).
  apply updateJobStatus_keeps_frame.
Qed.

(** A parked [updateJobStatus] only has to return. *)
Lemma updateJobStatus_parked id status message q id' q' k :
  updateJobStatus id status message q = Blocks id' q' k ->
  exists err, forall q1, k q1 = Returns err q1.
Proof.
  intros Heq.
  destruct (updateJobStatus_cases id status message q)
    as (r & d' & _ & [(_ & _ & Hsig)|[_ Hret]]).
  - rewrite Heq in Hsig. inversion Hsig; subst. eauto.
  - rewrite Heq in Hret. discriminate.
Qed.

Lemma dispatch_report_pc_ok jobID err q :
  pc_ok (snd (settle (dispatch_report jobID err q))).
Proof.
  rewrite dispatch_report_eq.
  destruct (updateJobStatus jobID _ _ q) as [a q'|id' q' k] eqn:Heq;
    simpl; [exact I|].
  apply updateJobStatus_parked in Heq as [e Hk].
  intros q1. rewrite Hk. reflexivity.
Qed.

(** What a step of a loop keeps. *)
Lemma loop_step_keeps w done q pc q' pc' :
  loop_step w done q pc q' pc' ->
  pc_ok pc ->
  pc <> Exited /\ pc_ok pc' /\
  wg q' = (wg q - live pc + live pc')%Z /\
  shutdownFuncs q' = shutdownFuncs q /\
  closed (db q') = closed (db q).
Proof.
  intros Hstep Hok.
  destruct Hstep as [q Hd|q jobID buf Hn|q Hd Hn|q jobID err q' Hup
                    |q jobID r q' Hget|q jobID err err' q' Hup
                    |q jobID job err|q jobID err|q id k buf Hn Hlt];
    (split; [discriminate|]).
  - simpl. repeat split. lia.
  - simpl. repeat split. lia.
  - simpl. repeat split. lia.
  - pose proof (updateJobStatus_keeps_frame jobID Uack
                  (String.append "Picked up by " (WorkerID w)) q)
      as (Hw & Hs & Hc).
    rewrite Hup in Hw, Hs, Hc. simpl in Hw, Hs, Hc.
    destruct err; simpl; repeat split; auto; lia.
  - pose proof (GetJobByID_keeps_frame jobID q) as (Hw & Hs & Hc).
    rewrite Hget in Hw, Hs, Hc. simpl in Hw, Hs, Hc.
    destruct r; simpl; repeat split; auto; lia.
  - pose proof (updateJobStatus_keeps_frame jobID Failed (Error err) q)
      as (Hw & Hs & Hc).
    rewrite Hup in Hw, Hs, Hc. simpl in Hw, Hs, Hc.
    simpl; repeat split; auto; lia.
  - simpl. repeat split. lia.
  - pose proof (dispatch_report_keeps_frame jobID err q) as (Hw & Hs & Hc).
    pose proof (dispatch_report_pc_ok jobID err q) as Hpc.
    rewrite settle_queue_of.
    split; [exact Hpc|]. split; [|auto].
    rewrite Hw. destruct (dispatch_report jobID err q); simpl; lia.
  - simpl in Hok. rewrite Hok. simpl. repeat split. lia.
Qed.

(** Steps of one loop with nothing in between. *)
Inductive loop_steps (w : Worker) (done : bool)
  : Queue -> LoopPC -> Queue -> LoopPC -> Prop :=
  | loop_steps_refl q pc : loop_steps w done q pc q pc
  | loop_steps_cons q1 pc1 q2 pc2 q3 pc3 :
      loop_step w done q1 pc1 q2 pc2 ->
      loop_steps w done q2 pc2 q3 pc3 ->
      loop_steps w done q1 pc1 q3 pc3.

(** The steps of a loop from the receipt of a job ID, taken with
    nothing in between, are [dispatch_receive]: it returns, and the loop
    gets to the next round or into [DoWork] as it says. *)
Lemma dispatch_receive_steps w done jobID q :
  exists d q',
    dispatch_receive w jobID q = Returns d q' /\
    loop_steps w done q (Received jobID) q'
      (match d with
       | Continue => AtSelect
       | InvokeDoWork job => Working jobID job
       end).
Proof.
  unfold dispatch_receive.
  destruct (updateJobStatus_no_signal jobID Uack
              (String.append "Picked up by " (WorkerID w)) q)
    as (r & d' & _ & Heq); [discriminate|].
  pose proof (loop_mark w done q jobID _ _ Heq) as Hmark.
  rewrite Heq. simpl.
  destruct (err_of r) as [e|].
  { eexists _, _. split; [reflexivity|].
    eapply loop_steps_cons; [exact Hmark|constructor]. }
  destruct (GetJobByID jobID (set_db d' q)) as [r2 q2] eqn:Hget.
  pose proof (loop_fetch w done _ jobID _ _ Hget) as Hfetch.
  destruct r2 as [job|e].
  { eexists _, _. split; [reflexivity|].
    eapply loop_steps_cons; [exact Hmark|].
    eapply loop_steps_cons; [exact Hfetch|constructor]. }
  destruct (updateJobStatus_no_signal jobID Failed (Error e) q2)
    as (r3 & d3 & _ & Heq3); [discriminate|].
  pose proof (loop_fetch_failed w done _ jobID _ _ _ Heq3) as Hfail.
  rewrite Heq3. simpl.
  eexists _, _. split; [reflexivity|].
  eapply loop_steps_cons; [exact Hmark|].
  eapply loop_steps_cons; [exact Hfetch|].
  eapply loop_steps_cons; [exact Hfail|constructor].
Qed.

Definition cancelled (s : System) (l : Loop) : Prop :=
  contexts s !! loop_ctx l = Some true.

(** What holds of every system that can be reached: the wait group
    counts the loops that have not exited; the cancel functions that
    [Close] has still to call cover the contexts not yet cancelled;
    once [Wait] has returned every loop has exited; once [Close] has
    returned the store is closed. *)
Definition safe (s : System) : Prop :=
  wg (queue s) = live_count (loops s) /\
  Forall (fun l => pc_ok (loop_pc l)) (loops s) /\
  match closer s with
  | NotCalled =>
      Forall (fun l => loop_ctx l ∈ shutdownFuncs (queue s)) (loops s) /\
      Forall (fun f => f < length (contexts s)) (shutdownFuncs (queue s))
  | Cancelling fs =>
      Forall (fun l => cancelled s l \/ loop_ctx l ∈ fs) (loops s) /\
      Forall (fun f => f < length (contexts s)) fs
  | Waiting => Forall (cancelled s) (loops s)
  | Closing =>
      Forall (cancelled s) (loops s) /\
      Forall (fun l => loop_pc l = Exited) (loops s)
  | Returned _ =>
      Forall (cancelled s) (loops s) /\
      Forall (fun l => loop_pc l = Exited) (loops s) /\
      closed (db (queue s)) = true
  end.

Lemma Forall_set_pc (P : Loop -> Prop) ls i l pc :
  ls !! i = Some l ->
  (P l -> P (set_pc pc l)) ->
  Forall P ls -> Forall P (<[i := set_pc pc l]> ls).
Proof.
  intros Hl HP Hall. apply Forall_insert; [assumption|].
  apply HP. eapply Forall_lookup_1; eassumption.
Qed.

Lemma safe_boot filepath d seed q :
  Init filepath (Ok d) seed = Ok q -> safe (boot q).
Proof.
  unfold Init. destruct (processJobs _) as [err q0] eqn:Hp.
  intros [= <-].
  destruct (processJobs_step
              (mkQueue filepath d (Some []) [] [] 0 500000000 seed))
    as (r & d' & Hp' & _).
  rewrite Hp' in Hp. injection Hp as _ <-.
  unfold safe, boot. simpl. repeat split; constructor.
Qed.

Lemma safe_frame s q' ps :
  frame (queue s) q' ->
  safe s ->
  safe (mkSystem q' (contexts s) (loops s) ps (closer s)).
Proof.
  intros (Hw & Hs & Hc) (Hwg & Hok & Hcl). unfold safe, cancelled in *.
  simpl. rewrite Hw, Hs, Hc.
  split; [assumption|]. split; [assumption|]. exact Hcl.
Qed.

Lemma safe_step s a s' : safe s -> step s a s' -> safe s'.
Proof.
  intros Hsafe Hstep.
  destruct Hstep as [s i l q' pc' Hl Hls|s w Hcl|s j|s i id buf Hp Hn Hlt
                    |s id|s Hcl|s f fs Hcl|s Hcl|s Hcl Hwg|s Hcl].
  - (* a loop *)
    destruct Hsafe as (Hwg & Hok & Hcls).
    assert (Hokl : pc_ok (loop_pc l))
      by (eapply (Forall_lookup_1 _ _ _ _ Hok); eassumption).
    destruct (loop_step_keeps _ _ _ _ _ _ Hls Hokl)
      as (Hne & Hok' & Hw & Hs & Hc).
    unfold safe, cancelled in *. simpl.
    split; [rewrite live_count_insert by exact Hl; lia|].
    split; [apply Forall_set_pc; auto|].
    destruct (closer s) as [|fs| | |err].
    + rewrite Hs. destruct Hcls as [H1 H2].
      split; [apply Forall_set_pc; auto|assumption].
    + destruct Hcls as [H1 H2].
      split; [apply Forall_set_pc; auto|assumption].
    + apply Forall_set_pc; auto.
    + destruct Hcls as [_ H2].
      exfalso. apply Hne. eapply (Forall_lookup_1 _ _ _ _ H2); eassumption.
    + destruct Hcls as (_ & H2 & _).
      exfalso. apply Hne. eapply (Forall_lookup_1 _ _ _ _ H2); eassumption.
  - (* RegisterWorker *)
    destruct Hsafe as (Hwg & Hok & Hcls). rewrite Hcl in Hcls.
    destruct Hcls as [H1 H2].
    unfold safe, RegisterWorker. simpl. rewrite Hcl.
    split; [rewrite live_count_app; simpl; lia|].
    split; [apply Forall_app; split; [assumption|repeat constructor]|].
    split.
    + apply Forall_app. split.
      * eapply Forall_impl; [exact H1|]. simpl. intros l Hin.
        apply elem_of_app. auto.
      * constructor; [|constructor]. simpl. apply elem_of_app. right.
        apply list_elem_of_singleton. reflexivity.
    + rewrite length_app. simpl. apply Forall_app. split.
      * eapply Forall_impl; [exact H2|]. simpl. intros; lia.
      * constructor; [lia|constructor].
  - (* PushJob *)
    apply (safe_frame s); [apply PushJob_keeps_frame|assumption].
  - (* a parked PushJob sends *)
    apply (safe_frame s); [repeat split|assumption].
  - (* GetJobByID *)
    apply (safe_frame s); [apply GetJobByID_keeps_frame|assumption].
  - (* Close is called *)
    destruct Hsafe as (Hwg & Hok & Hcls). rewrite Hcl in Hcls.
    destruct Hcls as [H1 H2]. unfold safe. simpl.
    split; [assumption|]. split; [assumption|].
    split; [|assumption].
    eapply Forall_impl; [exact H1|]. simpl. auto.
  - (* a cancel function *)
    destruct Hsafe as (Hwg & Hok & Hcls). rewrite Hcl in Hcls.
    destruct Hcls as [H1 H2]. apply Forall_cons in H2 as [Hf H2].
    unfold safe, cancelled in *. simpl.
    split; [assumption|]. split; [assumption|].
    split.
    + eapply Forall_impl; [exact H1|]. simpl. intros l [Hc|Hin].
      * left. destruct (decide (f = loop_ctx l)) as [->|Hne].
        -- apply list_lookup_insert_eq. assumption.
        -- rewrite list_lookup_insert_ne by exact Hne. assumption.
      * apply elem_of_cons in Hin as [->|Hin]; [left|right; assumption].
        apply list_lookup_insert_eq. assumption.
    + rewrite length_insert. assumption.
  - (* the cancel functions are through *)
    destruct Hsafe as (Hwg & Hok & Hcls). rewrite Hcl in Hcls.
    destruct Hcls as [H1 _]. unfold safe. simpl.
    split; [assumption|]. split; [assumption|].
    eapply Forall_impl; [exact H1|]. simpl. intros l [Hc|Hin];
      [exact Hc|]. inversion Hin.
  - (* Wait returns *)
    destruct Hsafe as (Hwg' & Hok & Hcls). rewrite Hcl in Hcls.
    unfold safe. simpl.
    split; [assumption|]. split; [assumption|].
    split; [assumption|]. apply live_count_zero. congruence.
  - (* Close returns *)
    destruct Hsafe as (Hwg & Hok & Hcls). rewrite Hcl in Hcls.
    destruct Hcls as [H1 H2]. unfold safe, Close_tail, db_Close. simpl.
    destruct (closed (db (queue s))) eqn:Hc; simpl;
      repeat split; assumption.
Qed.

Lemma reachable_safe s : reachable s -> safe s.
Proof.
  induction 1 as [filepath d seed q Hinit|s a s' _ IH Hstep].
  - eapply safe_boot, Hinit.
  - eapply safe_step; eassumption.
Qed.

(** C9.  In every system that can be reached, with the workers
    registered before [Close] is called, in which [Close] has returned:
    every dispatch loop has exited and its context has been cancelled,
    which only [Close] does, by the cancel function of that context;
    the store is closed; and no dispatch loop takes a step any more, so
    none accesses the store. *)
Theorem Close_joins_loops s err :
  reachable s ->
  closer s = Returned err ->
  Forall (fun l => loop_pc l = Exited /\ cancelled s l) (loops s) /\
  closed (db (queue s)) = true /\
  (forall a s', step s a s' -> forall i, a <> ALoop i).
Proof.
  intros Hr Hcl. apply reachable_safe in Hr as (Hwg & Hok & Hcls).
  rewrite Hcl in Hcls. destruct Hcls as (H1 & H2 & H3).
  split.
  { apply Forall_forall. intros l Hin.
    rewrite Forall_forall in H1, H2. auto. }
  split; [assumption|].
  intros a s' Hstep i ->.
  inversion Hstep as [s0 i0 l q' pc' Hl Hls| | | | | | | | |]; subst.
  assert (Hex : loop_pc l = Exited)
    by (eapply (Forall_lookup_1 _ _ _ _ H2); eassumption).
  rewrite Hex in Hls. inversion Hls.
Qed.

End GoroutineProperties.

(** ** The engine on concrete inputs *)

Section Demo.

#[local] Existing Instance ref_codec.
#[local] Existing Instance ref_uuids.

(** A queue as [Init] leaves it on an empty store. *)
Definition demo_q0 : Queue :=
  mkQueue "jobs.db" (mkDB ∅ false []) (Some []) [] [] 0 500000000 0.

Definition demo_id : bytes := ref_NewV4 0.

Definition demo_data : bytes := ["j"%byte; "o"%byte; "b"%byte].

(** The queue after [PushBytes demo_data]. *)
Definition demo_q1 : Queue := queue_of (PushBytes demo_data demo_q0).

Definition demo_job : Job := mkJob Uack demo_id demo_data "" 0.

Example demo_Init :
  Init "jobs.db" (Ok (mkDB ∅ false [])) 0 = Ok demo_q0.
Proof. vm_compute. reflexivity. Qed.

Example demo_PushBytes :
  PushBytes demo_data demo_q0 = Returns (demo_job, Ok demo_id) demo_q1.
Proof. vm_compute. reflexivity. Qed.

Example demo_q1_lookup :
  entries (db demo_q1) !! demo_id = Some (ref_Bytes demo_job).
Proof. vm_compute. reflexivity. Qed.

Lemma demo_q0_inv : store_wf (db demo_q0) /\ uuid_fresh demo_q0.
Proof.
  split.
  - intros k v H. simpl in H. rewrite lookup_empty in H. discriminate.
  - intros n _. apply lookup_empty.
Defined.

Lemma demo_q1_inv : store_wf (db demo_q1) /\ uuid_fresh demo_q1.
Proof.
  destruct demo_q0_inv as [Hwf Hfresh].
  destruct (PushJob_step (mkJob Uack [] demo_data "" 0) demo_q0 Hwf Hfresh)
    as (H1 & H2 & _).
  split; assumption.
Defined.

Lemma quiet_nil n : quiet n [].
Proof. unfold quiet. rewrite take_nil. constructor. Defined.

(** The caller's job of the run below: acknowledged, seven retries. *)
Definition demo_stale : Job := mkJob Ack [] demo_data "" 7.

(** C1 fails as stated: [PushJob] of a job that comes with [Status]
    [Ack] and [RetryCount] 7 stores and returns it with both. *)
Lemma PushJob_keeps_status_counterexample :
  let o := PushJob demo_stale demo_q0 in
  yields o (mkJob Ack demo_id demo_data "" 7, Ok demo_id) /\
  DecodeJob <$> (entries (db (queue_of o)) !! demo_id) =
    Some (mkJob Ack demo_id demo_data "" 7) /\
  ~ (forall j' id, yields o (j', Ok id) ->
       Status j' = Uack /\ RetryCount j' = 0).
Proof.
  assert (Hy : yields (PushJob demo_stale demo_q0)
                 (mkJob Ack demo_id demo_data "" 7, Ok demo_id))
    by (vm_compute; constructor).
  split; [exact Hy|].
  split; [vm_compute; reflexivity|].
  intros H. destruct (H _ _ Hy) as [Hs _]. discriminate Hs.
Qed.

Lemma PushJob_persists_witness :
  uuid_fresh demo_q0 /\
  yields (PushJob demo_stale demo_q0)
    (mkJob Ack demo_id demo_data "" 7, Ok demo_id) /\
  entries (db demo_q0) !! demo_id = None /\
  DecodeJob <$>
    (entries (db (queue_of (PushJob demo_stale demo_q0))) !! demo_id) =
    Some (mkJob Ack demo_id demo_data "" 7).
Proof.
  assert (Hy : yields (PushJob demo_stale demo_q0)
                 (mkJob Ack demo_id demo_data "" 7, Ok demo_id))
    by (vm_compute; constructor).
  destruct (PushJob_persists demo_stale demo_q0 _ _ (proj2 demo_q0_inv) Hy)
    as (_ & Hnone & _ & _ & _ & _ & _ & _ & Hget & _).
  split; [exact (proj2 demo_q0_inv)|].
  split; [exact Hy|]. split; [exact Hnone|exact Hget].
Defined.

Lemma updateJobStatus_correct_witness :
  entries (db demo_q1) !! demo_id = Some (ref_Bytes demo_job) /\
  exists d',
    entries d' =
      <[demo_id := ref_Bytes (mkJob Nack demo_id demo_data "retry" 1)]>
        (entries (db demo_q1)).
Proof.
  assert (Hv : entries (db demo_q1) !! demo_id = Some (ref_Bytes demo_job))
    by (vm_compute; reflexivity).
  split; [exact Hv|].
  destruct (updateJobStatus_correct demo_id Nack "retry" demo_q1 _ Hv)
    as (err & d' & _ & Hok & _ & Herr & _).
  exists d'. rewrite Hok.
  - vm_compute. reflexivity.
  - apply Herr; [reflexivity|apply quiet_nil].
Defined.

Lemma updateJobStatus_frame_witness :
  store_wf (db demo_q1) /\
  yields (updateJobStatus demo_id Ack "Complete" demo_q1) None /\
  exists v',
    entries (db (queue_of (updateJobStatus demo_id Ack "Complete" demo_q1)))
      !! demo_id = Some v' /\
    Data (DecodeJob v') = demo_data /\
    RetryCount (DecodeJob v') = 0.
Proof.
  assert (Hy : yields (updateJobStatus demo_id Ack "Complete" demo_q1) None)
    by (vm_compute; constructor).
  split; [exact (proj1 demo_q1_inv)|]. split; [exact Hy|].
  destruct (updateJobStatus_frame demo_id Ack "Complete" demo_q1
              (proj1 demo_q1_inv) Hy)
    as (v & v' & Hv & Hv' & _ & Hdata & _ & _ & Hrc & _).
  exists v'. split; [exact Hv'|].
  assert (v = ref_Bytes demo_job) as ->.
  { assert (Hv0 : entries (db demo_q1) !! demo_id
                  = Some (ref_Bytes demo_job)) by (vm_compute; reflexivity).
    rewrite Hv0 in Hv. injection Hv as <-. reflexivity. }
  rewrite Hdata, Hrc. vm_compute. auto.
Defined.

Lemma RetryCount_only_increases_witness :
  store_wf (db demo_q1) /\ uuid_fresh demo_q1 /\
  entries (db demo_q1) !! demo_id = Some (ref_Bytes demo_job) /\
  exists v',
    entries (db (run (OpUpdateJobStatus demo_id Nack "retry") demo_q1))
      !! demo_id = Some v' /\
    RetryCount (DecodeJob v') = 1.
Proof.
  assert (Hv : entries (db demo_q1) !! demo_id = Some (ref_Bytes demo_job))
    by (vm_compute; reflexivity).
  destruct demo_q1_inv as [Hwf Hfresh].
  split; [exact Hwf|]. split; [exact Hfresh|]. split; [exact Hv|].
  destruct (RetryCount_only_increases
              (OpUpdateJobStatus demo_id Nack "retry") demo_q1 _ _
              Hwf Hfresh Hv) as (_ & _ & _ & Hinc).
  destruct Hinc as (v' & Hv' & Hrc);
    [reflexivity|reflexivity|apply quiet_nil|].
  exists v'. split; [exact Hv'|]. rewrite Hrc.
  vm_compute. reflexivity.
Defined.

(** A second job, and the first one acknowledged. *)
Definition demo_q2 : Queue := queue_of (PushBytes [] demo_q1).

Definition demo_q3 : Queue :=
  queue_of (updateJobStatus demo_id Ack "Complete" demo_q2).

Lemma demo_q3_inv : store_wf (db demo_q3) /\ uuid_fresh demo_q3.
Proof.
  destruct demo_q1_inv as [Hwf1 Hfresh1].
  destruct (PushJob_step (mkJob Uack [] [] "" 0) demo_q1 Hwf1 Hfresh1)
    as (Hwf2 & Hfresh2 & _).
  destruct (updateJobStatus_step demo_id Ack "Complete" demo_q2
              Hwf2 Hfresh2) as (Hwf3 & Hfresh3 & _).
  split; assumption.
Defined.

Example demo_sweep :
  exists q,
    Init "jobs.db" (Ok (db demo_q3)) 2 = Ok q /\
    dom (entries (db demo_q3)) = {[demo_id; ref_NewV4 1]} /\
    dom (entries (db q)) = {[ref_NewV4 1]}.
Proof. eexists. split; [reflexivity|]. vm_compute. auto. Qed.

Lemma Init_sweep_witness :
  store_wf (db demo_q3) /\
  exists q,
    Init "jobs.db" (Ok (db demo_q3)) 2 = Ok q /\
    notifier q = Some [] /\
    entries (db q) !! demo_id = None /\
    is_Some (entries (db q) !! ref_NewV4 1).
Proof.
  split; [exact (proj1 demo_q3_inv)|].
  destruct (Init_sweep "jobs.db" (db demo_q3) 2 (proj1 demo_q3_inv))
    as (q & Hinit & Hn & _ & _ & Hex).
  exists q. split; [exact Hinit|]. split; [exact Hn|].
  assert (Hc : closed (db demo_q3) = false) by reflexivity.
  assert (Hq : quiet (size (entries (db demo_q3)) + 2) (faults (db demo_q3)))
    by (vm_compute; constructor).
  rewrite !(Hex Hc Hq). vm_compute. eauto.
Defined.

(** The store of [demo_q1], about to fail its next operation. *)
Definition demo_q1_failing : Queue :=
  set_db (mkDB (entries (db demo_q1)) false [Some (ErrOther "disk full")])
         demo_q1.

Lemma dispatch_receive_mark_fails_witness :
  yields (updateJobStatus demo_id Uack
            (String.append "Picked up by " (WorkerID (mkWorker "w1")))
            demo_q1_failing) (Some (ErrOther "disk full")) /\
  exists q',
    dispatch_receive (mkWorker "w1") demo_id demo_q1_failing
      = Returns Continue q' /\
    notifier q' = notifier demo_q1_failing.
Proof.
  assert (Hy : yields (updateJobStatus demo_id Uack
                 (String.append "Picked up by " (WorkerID (mkWorker "w1")))
                 demo_q1_failing) (Some (ErrOther "disk full")))
    by (vm_compute; constructor).
  split; [exact Hy|].
  destruct (dispatch_receive_mark_fails (mkWorker "w1") demo_id
              demo_q1_failing _ Hy) as (q' & Hd & Hn & _).
  exists q'. split; [exact Hd|exact Hn].
Defined.

Lemma dispatch_report_marks_witness :
  store_wf (db demo_q1) /\
  entries (db demo_q1) !! demo_id = Some (ref_Bytes demo_job) /\
  exists v',
    entries (db (queue_of (dispatch_report demo_id
                             (Some (RecoverableWorkerError "busy"))
                             demo_q1))) !! demo_id = Some v' /\
    Status (DecodeJob v') = Nack /\
    Message (DecodeJob v') = "busy".
Proof.
  assert (Hv : entries (db demo_q1) !! demo_id = Some (ref_Bytes demo_job))
    by (vm_compute; reflexivity).
  split; [exact (proj1 demo_q1_inv)|]. split; [exact Hv|].
  apply (proj2 (dispatch_report_marks demo_id
                  (Some (RecoverableWorkerError "busy")) demo_q1)
               _ (proj1 demo_q1_inv) Hv);
    [reflexivity|apply quiet_nil].
Defined.

Lemma PushBytes_GetJobByID_witness :
  PushBytes demo_data demo_q0 = Returns (demo_job, Ok demo_id) demo_q1 /\
  (exists job q',
     GetJobByID demo_id demo_q1 = (Ok job, q') /\
     Status job = Uack /\ RetryCount job = 0 /\ Data job = demo_data) /\
  entries (db demo_q1) !! ref_NewV4 1 = None /\
  (exists q', GetJobByID (ref_NewV4 1) demo_q1 = (Err ErrNotFound, q')).
Proof.
  assert (Hpush : PushBytes demo_data demo_q0
                  = Returns (demo_job, Ok demo_id) demo_q1)
    by (vm_compute; reflexivity).
  assert (Hnone : entries (db demo_q1) !! ref_NewV4 1 = None)
    by (vm_compute; reflexivity).
  split; [exact Hpush|]. split.
  - destruct (proj1 PushBytes_GetJobByID _ _ _ _ _ Hpush (quiet_nil 1))
      as (job & q' & Hget & Hs & Hrc & Hd & _).
    exists job, q'. auto.
  - split; [exact Hnone|].
    apply (proj2 PushBytes_GetJobByID _ _ Hnone);
      [reflexivity|apply quiet_nil].
Defined.

Lemma PushJob_commit_then_signal_witness :
  exists r d',
    db_Update (tx_Put (ref_NewV4 1) (Bytes (set_ID (ref_NewV4 1) demo_stale)))
              (db demo_q1) = (r, d') /\
    r = Ok tt.
Proof.
  destruct (PushJob_commit_then_signal demo_stale demo_q1)
    as (r & d' & Hup & Hok & _).
  exists r, d'. split; [exact Hup|].
  apply Hok; [reflexivity|apply quiet_nil].
Defined.

(** C2 on the two ways a push can go. *)
Example demo_PushJob_fails :
  PushJob demo_stale demo_q1_failing =
    Returns (set_ID (ref_NewV4 1) demo_stale, Err (ErrOther "disk full"))
            (set_entropy 2
               (set_db (mkDB (entries (db demo_q1)) false []) demo_q1)).
Proof. vm_compute. reflexivity. Qed.

Example demo_PushJob_signals :
  notifier (queue_of (PushJob demo_stale demo_q1))
    = Some [demo_id; ref_NewV4 1].
Proof. vm_compute. reflexivity. Qed.

(** A run of the goroutines: a worker registers, [Close] is called
    and cancels its context, the loop exits, [Close] returns. *)
Definition demo_registered : System :=
  RegisterWorker (mkWorker "w1") (boot demo_q0).

Definition demo_closed : System :=
  mkSystem (set_wg 0 (set_notifier None (set_db (mkDB ∅ true []) demo_q0)))
           [true] [mkLoop (mkWorker "w1") 0 Exited] [] (Returned None).

Lemma demo_closed_reachable : reachable demo_closed.
Proof.
  assert (H0 : reachable (boot demo_q0)).
  { apply (reachable_boot "jobs.db" (mkDB ∅ false []) 0).
    vm_compute. reflexivity. }
  assert (H1 : reachable demo_registered).
  { eapply reachable_step; [exact H0|]. apply step_register. reflexivity. }
  assert (H2 : reachable
            (mkSystem (queue demo_registered) [false]
               [mkLoop (mkWorker "w1") 0 AtSelect] [] (Cancelling [0]))).
  { eapply reachable_step; [exact H1|].
    apply (step_close_call demo_registered). reflexivity. }
  assert (H3 : reachable
            (mkSystem (queue demo_registered) [true]
               [mkLoop (mkWorker "w1") 0 AtSelect] [] (Cancelling []))).
  { eapply reachable_step; [exact H2|].
    exact (step_close_cancel
             (mkSystem (queue demo_registered) [false]
                [mkLoop (mkWorker "w1") 0 AtSelect] [] (Cancelling [0]))
             0 [] eq_refl). }
  assert (H4 : reachable
            (mkSystem (queue demo_registered) [true]
               [mkLoop (mkWorker "w1") 0 AtSelect] [] Waiting)).
  { eapply reachable_step; [exact H3|].
    exact (step_close_wait
             (mkSystem (queue demo_registered) [true]
                [mkLoop (mkWorker "w1") 0 AtSelect] [] (Cancelling []))
             eq_refl). }
  assert (H5 : reachable
            (mkSystem (set_wg 0 (queue demo_registered)) [true]
               [mkLoop (mkWorker "w1") 0 Exited] [] Waiting)).
  { eapply reachable_step; [exact H4|].
    exact (step_loop
             (mkSystem (queue demo_registered) [true]
                [mkLoop (mkWorker "w1") 0 AtSelect] [] Waiting)
             0 (mkLoop (mkWorker "w1") 0 AtSelect)
             (set_wg 0 (queue demo_registered)) Exited eq_refl
             (loop_exit (mkWorker "w1") true (queue demo_registered)
                eq_refl)). }
  assert (H6 : reachable
            (mkSystem (set_wg 0 (queue demo_registered)) [true]
               [mkLoop (mkWorker "w1") 0 Exited] [] Closing)).
  { eapply reachable_step; [exact H5|].
    exact (step_close_waited
             (mkSystem (set_wg 0 (queue demo_registered)) [true]
                [mkLoop (mkWorker "w1") 0 Exited] [] Waiting)
             eq_refl eq_refl). }
  eapply reachable_step; [exact H6|].
  exact (step_close_return
           (mkSystem (set_wg 0 (queue demo_registered)) [true]
              [mkLoop (mkWorker "w1") 0 Exited] [] Closing)
           eq_refl).
Defined.

Lemma Close_joins_loops_witness :
  reachable demo_closed /\
  closer demo_closed = Returned None /\
  Forall (fun l => loop_pc l = Exited /\ cancelled demo_closed l)
         (loops demo_closed) /\
  closed (db (queue demo_closed)) = true.
Proof.
  split; [exact demo_closed_reachable|]. split; [reflexivity|].
  destruct (Close_joins_loops demo_closed None demo_closed_reachable
              eq_refl) as (H1 & H2 & _).
  split; [exact H1|exact H2].
Defined.

End Demo.

(** ** More of the engine: reading, listing, missing keys *)

Section ReadingProperties.

Context `{codec : JobCodec} `{uuids : UuidSource}.

Lemma set_db_same q : set_db (db q) q = q.
Proof. destruct q; reflexivity. Qed.

Lemma ListJobs_loop_lookup (es : list (bytes * bytes)) (r : gmap bytes Job)
    (k : bytes) :
  NoDup (fst <$> es) ->
  (forall k' v, (k', v) ∈ es -> ID (DecodeJob v) = k') ->
  foldl (fun r entry => <[ID (DecodeJob (snd entry)) := DecodeJob (snd entry)]> r)
        r es !! k =
    match (list_to_map es : gmap bytes bytes) !! k with
    | Some v => Some (DecodeJob v)
    | None => r !! k
    end.
Proof.
  revert r. induction es as [|[k0 v0] es IH]; intros r Hnd Hwf.
  - rewrite list_to_map_nil, lookup_empty. reflexivity.
  - rewrite fmap_cons in Hnd. apply NoDup_cons in Hnd as [Hnotin Hnd].
    cbn [foldl fst snd] in *.
    rewrite IH; [|assumption|intros k' v Hin; apply Hwf; right; assumption].
    rewrite list_to_map_cons, (Hwf k0 v0) by left.
    destruct (decide (k0 = k)) as [->|Hne].
    + rewrite !lookup_insert_eq.
      rewrite (not_elem_of_list_to_map_1 _ _ Hnotin). reflexivity.
    + rewrite !lookup_insert_ne by assumption. reflexivity.
Qed.

(** The map of [ListJobs] over all the entries of a bucket that keeps
    every record under its own ID. *)
Lemma ListJobs_loop_map_to_list (m : gmap bytes bytes) (k : bytes) :
  (forall k' v, m !! k' = Some v -> ID (DecodeJob v) = k') ->
  ListJobs_loop (map_to_list m) !! k = DecodeJob <$> (m !! k).
Proof.
  intros Hwf. unfold ListJobs_loop.
  rewrite ListJobs_loop_lookup.
  - rewrite list_to_map_to_list, lookup_empty.
    destruct (m !! k); reflexivity.
  - apply NoDup_fst_map_to_list.
  - intros k' v Hin. apply elem_of_map_to_list in Hin. eapply Hwf, Hin.
Qed.

(** [ListJobs] on an open store that does not fail the scan. *)
Lemma ListJobs_quiet q :
  closed (db q) = false ->
  quiet 1 (faults (db q)) ->
  exists fs,
    ListJobs q =
      (Ok (ListJobs_loop (map_to_list (entries (db q)))),
       set_db (mkDB (entries (db q)) false fs) q).
Proof.
  intros Hc Hq. unfold ListJobs, db_View, db_Begin, tx_bind, tx_GetAll.
  rewrite Hc.
  match goal with |- context [tx_op ?f ?t] =>
    destruct (tx_op_quiet f 0 t Hq) as (fs & _ & ->) end.
  simpl. eauto.
Qed.


(** X17.  [ListJobs] and [GetJobByID] agree, on an open store that
    keeps every record under its own ID and does not fail the read of
    either: a job is listed under a key exactly when [GetJobByID] of
    that key returns it. *)
Theorem ListJobs_agrees_with_GetJobByID q r q1 k job :
  store_wf (db q) ->
  closed (db q) = false ->
  quiet 1 (faults (db q)) ->
  ListJobs q = (Ok r, q1) ->
  r !! k = Some job <-> exists q2, GetJobByID k q = (Ok job, q2).
Proof.
  intros Hwf Hc Hq Hlist.
  destruct (ListJobs_quiet q Hc Hq) as (fs' & Hlist').
  rewrite Hlist in Hlist'. injection Hlist' as -> _.
  destruct (GetJobByID_quiet k q Hc Hq) as (fs & Hget).
  rewrite (ListJobs_loop_map_to_list _ _ Hwf), Hget.
  destruct (entries (db q) !! k) as [v|]; simpl; split.
  - intros [= <-]. eauto.
  - intros (q2 & [= <- _]). reflexivity.
  - discriminate.
  - intros (q2 & [=]).
Qed.

(** X2.  The two readers, [GetJobByID] and [ListJobs], whatever the
    store answers: the entries of the store, the notification channel
    and the state of the handle are as before the call; and on a closed
    store both return the error of the closed handle. *)
Theorem readers_change_nothing q id :
  let q1 := snd (GetJobByID id q) in
  let q2 := snd (ListJobs q) in
  entries (db q1) = entries (db q) /\ notifier q1 = notifier q /\
  closed (db q1) = closed (db q) /\
  entries (db q2) = entries (db q) /\ notifier q2 = notifier q /\
  closed (db q2) = closed (db q) /\
  (closed (db q) = true ->
     GetJobByID id q = (Err ErrDBClosed, q) /\
     ListJobs q = (Err ErrDBClosed, q)).
Proof.
  unfold GetJobByID, ListJobs.
  destruct (db_View (tx_bind (tx_Get id) _) (db q)) as [r1 d1] eqn:H1.
  destruct (db_View (tx_bind tx_GetAll _) (db q)) as [r2 d2] eqn:H2.
  simpl.
  pose proof (db_View_inv _ _ _ _ H1) as (Hc1 & He1 & Hr1).
  pose proof (db_View_inv _ _ _ _ H2) as (Hc2 & He2 & Hr2).
  repeat (split; [first [assumption|reflexivity]|]).
  intros Hc. unfold db_View, db_Begin in H1, H2. rewrite Hc in H1, H2.
  injection H1 as <- <-. injection H2 as <- <-.
  rewrite set_db_same. auto.
Qed.

End ReadingProperties.

(** ** More of the engine: status updates and the dispatch round *)

Section RoundProperties.

Context `{codec : JobCodec} `{uuids : UuidSource}.

(** X3.  [updateJobStatus] of an ID that is not in the store, on an
    open store that does not fail the read: the call returns the
    not-found error, whatever the status, [Nack] included; nothing is
    written and nothing is sent on the notification channel. *)
Theorem updateJobStatus_missing id status message q :
  entries (db q) !! id = None ->
  closed (db q) = false ->
  quiet 1 (faults (db q)) ->
  exists q',
    updateJobStatus id status message q = Returns (Some ErrNotFound) q' /\
    entries (db q') = entries (db q) /\
    notifier q' = notifier q.
Proof.
  intros Hnone Hc Hq.
  unfold updateJobStatus, db_Update, db_Begin, updateJobStatus_fn,
    tx_bind, tx_Get.
  rewrite Hc.
  match goal with |- context [tx_op ?f ?t] =>
    destruct (tx_op_quiet f 0 t Hq) as (fs & _ & ->) end.
  simpl. rewrite Hnone. simpl.
  rewrite decide_False by (intros [_ [=]]).
  eexists. split; [reflexivity|]. auto.
Qed.

(** X4.  [GetJobByID] after a call of [updateJobStatus] that returned
    [nil], on a store that keeps every record under its own ID and does
    not fail the read: it returns the job of that ID with the [Status]
    and the [Message] just set. *)
Theorem updateJobStatus_then_GetJobByID id status message q :
  store_wf (db q) ->
  yields (updateJobStatus id status message q) None ->
  quiet 1 (faults (db (queue_of (updateJobStatus id status message q)))) ->
  exists job q',
    GetJobByID id (queue_of (updateJobStatus id status message q))
      = (Ok job, q') /\
    ID job = id /\ Status job = status /\ Message job = message.
Proof.
  intros Hwf Hy Hq.
  destruct (updateJobStatus_yields_None _ _ _ _ Hy) as (d' & Hup & Hd).
  apply updateJobStatus_tx in Hup
    as [Hc [(e & [=] & _)|(v & _ & Hcl & Hv & Hent)]].
  assert (Hc' : closed (db (queue_of (updateJobStatus id status message q)))
                = false) by (rewrite Hd; congruence).
  destruct (GetJobByID_quiet id _ Hc' Hq) as (fs & Hget).
  rewrite Hd, Hent in Hget. rewrite (Hwf _ _ Hv), lookup_insert_eq in Hget.
  rewrite DecodeJob_Bytes in Hget.
  eexists _, _. split; [exact Hget|]. simpl.
  split; [apply (Hwf _ _ Hv)|]. auto.
Qed.

(** X6.  The dispatch loop with a job ID it has received, the record
    being in a store that keeps every record under its own ID, is open
    and does not fail the four operations of the marking and of the
    fetch: the loop gets to the call of [DoWork], with the stored job
    under its ID, its [Data] and its [RetryCount], marked [Uack] with
    the message "Picked up by" and the ID of the worker; the store holds
    that very job, and nothing is sent on the notification channel. *)
Theorem dispatch_receive_invokes w jobID q v :
  store_wf (db q) ->
  entries (db q) !! jobID = Some v ->
  closed (db q) = false ->
  quiet 4 (faults (db q)) ->
  let job :=
    mkJob Uack jobID (Data (DecodeJob v))
          (String.append "Picked up by " (WorkerID w))
          (RetryCount (DecodeJob v)) in
  exists q',
    dispatch_receive w jobID q = Returns (InvokeDoWork job) q' /\
    entries (db q') = <[jobID := Bytes job]> (entries (db q)) /\
    notifier q' = notifier q.
Proof.
  intros Hwf Hv Hc Hq job. unfold dispatch_receive.
  destruct (updateJobStatus_no_signal jobID Uack
              (String.append "Picked up by " (WorkerID w)) q)
    as (r & d' & Hup & ->); [discriminate|].
  destruct (updateJobStatus_tx_quiet jobID Uack
              (String.append "Picked up by " (WorkerID w)) (db q) v 1
              Hc Hv Hq) as (fs & Hfs & Hok).
  rewrite Hok in Hup. injection Hup as <- <-. simpl.
  assert (Hjob : marked Uack (String.append "Picked up by " (WorkerID w))
                   (DecodeJob v) = job).
  { subst job. unfold marked. rewrite (Hwf _ _ Hv). reflexivity. }
  rewrite (Hwf _ _ Hv), Hjob.
  match goal with |- context [GetJobByID jobID ?q0] =>
    destruct (GetJobByID_quiet jobID q0 eq_refl Hfs) as (fs' & ->) end.
  simpl. rewrite lookup_insert_eq, DecodeJob_Bytes.
  eexists. split; [reflexivity|]. auto.
Qed.

(** X8.  The dispatch loop once [DoWork] has returned: for no error and
    for an error that is not recoverable, the report returns with the
    notification channel as it was, so that the job is not delivered
    again; for a recoverable error, with the record in an open store
    that does what it is asked and room in the channel, the report
    returns with the job ID at the back of the channel. *)
Theorem dispatch_report_redelivery jobID q :
  (forall err,
     match err with
     | Some (RecoverableWorkerError _) => False
     | _ => True
     end ->
     exists q',
       dispatch_report jobID err q = Returns tt q' /\
       notifier q' = notifier q) /\
  (forall msg v buf,
     entries (db q) !! jobID = Some v ->
     closed (db q) = false ->
     quiet 3 (faults (db q)) ->
     notifier q = Some buf ->
     length buf < notifier_capacity ->
     exists q',
       dispatch_report jobID (Some (RecoverableWorkerError msg)) q
         = Returns tt q' /\
       notifier q' = Some (buf ++ [jobID])).
Proof.
  split.
  - intros err Herr. rewrite dispatch_report_eq.
    match goal with |- context [updateJobStatus jobID ?st ?m q] =>
      destruct (updateJobStatus_no_signal jobID st m q)
        as (r & d' & _ & ->) end.
    + destruct err as [[]|]; try discriminate. contradiction.
    + simpl. eexists. split; [reflexivity|reflexivity].
  - intros msg v buf Hv Hc Hq Hn Hlt. rewrite dispatch_report_eq.
    destruct (updateJobStatus_cases jobID Nack msg q)
      as (r & d' & Hup & [(_ & _ & Hsig)|[[Hs|He] _]]).
    + simpl. inversion Hsig as [buf' Hn' Hlt' Ho|k Hfull Hk Ho].
      * simpl in Hn'. rewrite Hn in Hn'. injection Hn' as <-.
        simpl. eexists. split; [reflexivity|reflexivity].
      * simpl in Hfull. specialize (Hfull _ Hn). lia.
    + contradiction.
    + destruct (updateJobStatus_tx_quiet jobID Nack msg (db q) v 0
                  Hc Hv Hq) as (fs & _ & Hok).
      rewrite Hok in Hup. injection Hup as <- _. contradiction.
Qed.

End RoundProperties.

(** ** More of the engine: sequences of operations *)

(** The operations of a list, one after the other. *)
Definition runs `{codec : JobCodec} `{uuids : UuidSource}
    (os : list op) (q : Queue) : Queue :=
  foldl (fun q o => run o q) q os.

(** A function of a transaction that leaves an exhausted script
    exhausted. *)
Definition script_safe {A} (fn : TxM A) : Prop :=
  forall tx, tx_faults tx = [] -> tx_faults (snd (fn tx)) = [].

Lemma script_safe_op {A}
    (f : gmap bytes bytes -> result A * gmap bytes bytes) :
  script_safe (tx_op f).
Proof.
  intros tx H. unfold tx_op. rewrite H. simpl.
  destruct (f (pending tx)); reflexivity.
Qed.

Lemma script_safe_ret {A} (a : A) : script_safe (tx_ret a).
Proof. intros tx H. exact H. Qed.

Lemma script_safe_bind {A B} (m : TxM A) (f : A -> TxM B) :
  script_safe m -> (forall a, script_safe (f a)) -> script_safe (tx_bind m f).
Proof.
  intros Hm Hf tx H. unfold tx_bind. specialize (Hm tx H).
  destruct (m tx) as [[a|e] tx']; simpl in *; [apply Hf|]; assumption.
Qed.

Lemma db_Update_script {A} (fn : TxM A) d :
  script_safe fn -> faults d = [] -> faults (snd (db_Update fn d)) = [].
Proof.
  intros Hfn Hd. unfold db_Update, db_Begin.
  destruct (closed d); [exact Hd|].
  specialize (Hfn (mkTx (entries d) (faults d)) Hd). unfold db_End.
  destruct (fn _) as [[a|e] tx']; simpl in *; rewrite Hfn; reflexivity.
Qed.

Lemma db_View_script {A} (fn : TxM A) d :
  script_safe fn -> faults d = [] -> faults (snd (db_View fn d)) = [].
Proof.
  intros Hfn Hd. unfold db_View, db_Begin.
  destruct (closed d); [exact Hd|].
  specialize (Hfn (mkTx (entries d) (faults d)) Hd).
  destruct (fn _) as [r tx']; simpl in *. exact Hfn.
Qed.

Section SequenceProperties.

Context `{codec : JobCodec} `{uuids : UuidSource}.

Lemma script_safe_processJobs_loop es : script_safe (processJobs_loop es).
Proof.
  induction es as [|e es IH]; simpl; [apply script_safe_ret|].
  destruct (Status (DecodeJob (snd e))); try exact IH;
    (apply script_safe_bind; [apply script_safe_op|intros _; exact IH]).
Qed.

(** What holds from a queue to the one [dispatch_receive] leaves, when
    it holds across [updateJobStatus] and [GetJobByID] and is
    transitive. *)
Lemma dispatch_receive_rel (P : Queue -> Queue -> Prop) :
  (forall q id status message,
     P q (queue_of (updateJobStatus id status message q))) ->
  (forall q id, P q (snd (GetJobByID id q))) ->
  (forall q1 q2 q3, P q1 q2 -> P q2 q3 -> P q1 q3) ->
  forall w jobID q, P q (queue_of (dispatch_receive w jobID q)).
Proof.
  intros Hup Hget Htrans w jobID q. unfold dispatch_receive.
  pose proof (Hup q jobID Uack (String.append "Picked up by " (WorkerID w)))
    as H1.
  destruct (updateJobStatus_no_signal jobID Uack
              (String.append "Picked up by " (WorkerID w)) q)
    as (r & d' & _ & Heq); [discriminate|].
  rewrite Heq in H1 |- *. simpl in H1 |- *.
  destruct (err_of r); [exact H1|].
  pose proof (Hget (set_db d' q) jobID) as H2.
  destruct (GetJobByID jobID (set_db d' q)) as [r2 q2]. simpl in H2.
  destruct r2 as [job|e]; simpl; [eapply Htrans; eassumption|].
  rewrite (queue_of_obind_Returns _ (fun _ => Continue)).
  eapply Htrans; [eapply Htrans; eassumption|apply Hup].
Qed.

(** The same for every operation. *)
Lemma run_rel (P : Queue -> Queue -> Prop) :
  (forall q j, P q (queue_of (PushJob j q))) ->
  (forall q id status message,
     P q (queue_of (updateJobStatus id status message q))) ->
  (forall q id, P q (snd (GetJobByID id q))) ->
  (forall q, P q (snd (processJobs q))) ->
  (forall q1 q2 q3, P q1 q2 -> P q2 q3 -> P q1 q3) ->
  forall o q, P q (run o q).
Proof.
  intros Hpush Hup Hget Hsweep Htrans o q.
  destruct o as [j|d|id|id status message| |w jobID|jobID err]; simpl.
  - apply Hpush.
  - apply Hpush.
  - apply Hget.
  - apply Hup.
  - apply Hsweep.
  - apply dispatch_receive_rel; assumption.
  - destruct (dispatch_report_as_update jobID err q)
      as (status & message & -> & _). apply Hup.
Qed.

(** The fields of the queue that the operations leave alone, and the
    draws of UUIDs, which only grow in number. *)
Definition fields_kept (q q' : Queue) : Prop :=
  QueueID q' = QueueID q /\ workers q' = workers q /\
  shutdownFuncs q' = shutdownFuncs q /\ wg q' = wg q /\
  PollRate q' = PollRate q /\ entropy q <= entropy q'.

Lemma run_fields_kept o q : fields_kept q (run o q).
Proof.
  apply run_rel; clear o q.
  - intros q j.
    destruct (PushJob_cases j q) as [[Hc ->]|(Hc & r & d' & Hup & Hr)];
      [unfold fields_kept; simpl; split_and!; (reflexivity || lia)|].
    simpl in Hr. destruct r as [[]|e].
    + apply Signals_queue_of in Hr as [[c ->] _].
      unfold fields_kept; simpl; split_and!; (reflexivity || lia).
    + rewrite Hr. unfold fields_kept; simpl; split_and!; (reflexivity || lia).
  - intros q id status message.
    destruct (updateJobStatus_queue_of id status message q)
      as (r & d' & c & _ & ->).
    unfold fields_kept; simpl; split_and!; (reflexivity || lia).
  - intros q id. destruct (GetJobByID_step id q) as (d & -> & _).
    unfold fields_kept; simpl; split_and!; (reflexivity || lia).
  - intros q. destruct (processJobs_step q) as (r & d & -> & _).
    unfold fields_kept; simpl; split_and!; (reflexivity || lia).
  - unfold fields_kept. intros q1 q2 q3 (?&?&?&?&?&?) (?&?&?&?&?&?).
    repeat split; try congruence. lia.
Qed.

Lemma runs_entropy os q : entropy q <= entropy (runs os q).
Proof.
  unfold runs. revert q.
  induction os as [|o os IH]; intros q; cbn [foldl]; [lia|].
  pose proof (run_fields_kept o q) as (_ & _ & _ & _ & _ & Hle).
  specialize (IH (run o q)). lia.
Qed.

(** X5.  Two calls of [PushJob] that return an ID, with any operations
    of the engine between them, return different IDs: the UUID source
    has no collisions and a draw is never taken back. *)
Theorem PushJob_ids_distinct j1 j2 os q j1' id1 j2' id2 :
  yields (PushJob j1 q) (j1', Ok id1) ->
  yields (PushJob j2 (runs os (queue_of (PushJob j1 q)))) (j2', Ok id2) ->
  id1 <> id2.
Proof.
  intros H1 H2.
  apply PushJob_yields_Ok in H1 as (Hid1 & _ & _ & Hen & _).
  apply PushJob_yields_Ok in H2 as (Hid2 & _).
  pose proof (runs_entropy os (queue_of (PushJob j1 q))) as Hle.
  rewrite Hid1, Hid2. intros Heq. apply NewV4_inj in Heq. lia.
Qed.

End SequenceProperties.

Section CountingProperties.

Context `{codec : JobCodec} `{uuids : UuidSource}.

(** An open store whose script is exhausted: it does what it is asked
    from now on. *)
Definition healthy (q : Queue) : Prop :=
  closed (db q) = false /\ faults (db q) = [].

Lemma script_safe_updateJobStatus_fn id status message :
  script_safe (updateJobStatus_fn id status message).
Proof.
  unfold updateJobStatus_fn. apply script_safe_bind.
  - apply script_safe_op.
  - intros e. apply script_safe_op.
Qed.

Lemma run_healthy o q : healthy q -> healthy (run o q).
Proof.
  apply (run_rel (fun q q' => healthy q -> healthy q')); clear o q.
  - intros q j [Hc Hf].
    pose proof (PushJob_keeps_frame j q) as (_ & _ & Hcl).
    split; [congruence|].
    destruct (PushJob_cases j q) as [[Hc' _]|(_ & r & d' & Hup & Hr)];
      [congruence|].
    simpl in Hr.
    pose proof (db_Update_script
                  (tx_Put (NewV4 (entropy q))
                          (Bytes (set_ID (NewV4 (entropy q)) j)))
                  (db q) (script_safe_op _) Hf) as Hs.
    rewrite Hup in Hs. simpl in Hs.
    destruct r as [[]|e].
    + apply Signals_queue_of in Hr as [[c ->] _]. exact Hs.
    + rewrite Hr. exact Hs.
  - intros q id status message [Hc Hf].
    pose proof (updateJobStatus_keeps_frame id status message q)
      as (_ & _ & Hcl).
    split; [congruence|].
    destruct (updateJobStatus_queue_of id status message q)
      as (r & d' & c & Hup & ->).
    pose proof (db_Update_script _ (db q)
                  (script_safe_updateJobStatus_fn id status message) Hf)
      as Hs.
    rewrite Hup in Hs. exact Hs.
  - intros q id [Hc Hf].
    pose proof (GetJobByID_keeps_frame id q) as (_ & _ & Hcl).
    split; [congruence|].
    unfold GetJobByID.
    pose proof (db_View_script
                  (tx_bind (tx_Get id) (fun e => tx_ret (DecodeJob e)))
                  (db q)) as Hs.
    destruct (db_View _ (db q)) as [r d]. simpl in *. apply Hs; [|exact Hf].
    apply script_safe_bind; [apply script_safe_op|].
    intros e. apply script_safe_ret.
  - intros q [Hc Hf].
    destruct (processJobs_step q) as (r & d & -> & Hup).
    pose proof (processJobs_tx _ _ _ Hup) as [Hcl _].
    pose proof (db_Update_script (tx_bind tx_GetAll processJobs_loop) (db q))
      as Hs.
    rewrite Hup in Hs. unfold healthy. simpl in *.
    split; [congruence|]. apply Hs; [|exact Hf].
    apply script_safe_bind; [apply script_safe_op|].
    apply script_safe_processJobs_loop.
  - auto.
Qed.

Lemma run_retries_step o q :
  store_wf (db q) -> uuid_fresh q ->
  o <> OpProcessJobs ->
  retries_step (nacks o) (db q) (db (run o q)).
Proof.
  intros Hwf Hfresh Hne.
  destruct o as [j|d|id|id status message| |w jobID|jobID err]; cbn [run].
  - apply PushJob_step; assumption.
  - apply (PushJob_step (mkJob Uack [] d "" 0)); assumption.
  - destruct (GetJobByID_step id q) as (d & -> & He & _).
    apply retries_step_refl. exact He.
  - rewrite <- (nacks_update id status message).
    apply updateJobStatus_step; assumption.
  - contradiction.
  - apply dispatch_receive_step; assumption.
  - destruct (dispatch_report_as_update jobID err q)
      as (status & message & -> & Hn).
    rewrite <- Hn.
    apply updateJobStatus_step; assumption.
Qed.

Lemma run_nack_commits o q k v :
  store_wf (db q) -> healthy q ->
  entries (db q) !! k = Some v ->
  nacks o = Some k ->
  exists v', entries (db (run o q)) !! k = Some v' /\
    RetryCount (DecodeJob v') = S (RetryCount (DecodeJob v)).
Proof.
  intros Hwf [Hc Hf] Hv Hn.
  assert (Hupd : forall message,
            exists v',
              entries (db (queue_of (updateJobStatus k Nack message q))) !! k
                = Some v' /\
              RetryCount (DecodeJob v') = S (RetryCount (DecodeJob v))).
  { intros message.
    destruct (updateJobStatus_queue_of k Nack message q)
      as (r & d' & c & Hup & ->).
    assert (Hq : quiet 3 (faults (db q))) by (rewrite Hf; apply quiet_nil).
    destruct (updateJobStatus_tx_quiet k Nack message (db q) v 0 Hc Hv Hq)
      as (fs & _ & Hok).
    rewrite Hok in Hup. injection Hup as _ <-. simpl.
    rewrite (Hwf _ _ Hv), lookup_insert_eq.
    eexists. split; [reflexivity|]. rewrite DecodeJob_Bytes. reflexivity. }
  destruct o as [j|d|id|id status message| |w jobID|jobID err];
    simpl in Hn |- *; try discriminate.
  - destruct status; try discriminate. injection Hn as ->. apply Hupd.
  - destruct err as [[]|]; try discriminate. injection Hn as ->.
    unfold dispatch_report. simpl.
    rewrite (queue_of_obind_Returns _ (fun _ => tt)). apply Hupd.
Qed.

(** X9.  Over any sequence of operations of the engine other than the
    sweep, on an open store that does what it is asked: a stored record
    is still stored at the end, and its retry count has grown by the
    number of operations of the sequence that marked it [Nack]. *)
Theorem RetryCount_counts_nacks os q k v :
  store_wf (db q) -> uuid_fresh q -> healthy q ->
  OpProcessJobs ∉ os ->
  entries (db q) !! k = Some v ->
  exists v',
    entries (db (runs os q)) !! k = Some v' /\
    RetryCount (DecodeJob v') =
      RetryCount (DecodeJob v)
      + length (filter (fun o => nacks o = Some k) os).
Proof.
  unfold runs. revert q v.
  induction os as [|o os IH]; intros q v Hwf Hfresh Hh Hnot Hv;
    cbn [foldl].
  - exists v. split; [assumption|]. simpl. lia.
  - assert (Hne : o <> OpProcessJobs)
      by (intros ->; apply Hnot; left).
    assert (Hnot' : OpProcessJobs ∉ os)
      by (intros Hin; apply Hnot; right; exact Hin).
    destruct (run_invariant o q Hwf Hfresh) as [Hwf1 Hfresh1].
    pose proof (run_healthy o q Hh) as Hh1.
    pose proof (run_retries_step o q Hwf Hfresh Hne) as Hstep.
    destruct (Hstep _ _ Hv) as (v1 & Hv1 & Hrc).
    destruct (IH _ _ Hwf1 Hfresh1 Hh1 Hnot' Hv1) as (v' & Hv' & Hrc').
    exists v'. split; [exact Hv'|]. rewrite Hrc'.
    rewrite filter_cons.
    destruct (decide (nacks o = Some k)) as [Hn|Hn]; simpl.
    + destruct (run_nack_commits o q k v Hwf Hh Hv Hn) as (v2 & Hv2 & Hrc2).
      rewrite Hv1 in Hv2. injection Hv2 as <-. lia.
    + destruct Hrc as [Hrc|(_ & Hn' & _)]; [lia|contradiction].
Qed.

End CountingProperties.

(** ** More of the engine: payloads, the sweep, a failed fetch *)

Section PayloadProperties.

Context `{codec : JobCodec} `{uuids : UuidSource}.

(** From [d] to [d'] every record stays, with its ID and its data. *)
Definition same_payload (d d' : DB) : Prop :=
  forall k v, entries d !! k = Some v ->
    exists v', entries d' !! k = Some v' /\
      ID (DecodeJob v') = ID (DecodeJob v) /\
      Data (DecodeJob v') = Data (DecodeJob v).

(** The invariants of the store, kept, and the payloads with them. *)
Definition payload_step (q q' : Queue) : Prop :=
  store_wf (db q) -> uuid_fresh q ->
  store_wf (db q') /\ uuid_fresh q' /\ same_payload (db q) (db q').

Lemma payload_step_trans q1 q2 q3 :
  payload_step q1 q2 -> payload_step q2 q3 -> payload_step q1 q3.
Proof.
  intros H12 H23 Hwf Hfresh.
  destruct (H12 Hwf Hfresh) as (Hwf2 & Hfresh2 & Hp12).
  destruct (H23 Hwf2 Hfresh2) as (Hwf3 & Hfresh3 & Hp23).
  split; [assumption|]. split; [assumption|].
  intros k v Hv.
  destruct (Hp12 _ _ Hv) as (v2 & Hv2 & Hi2 & Hd2).
  destruct (Hp23 _ _ Hv2) as (v3 & Hv3 & Hi3 & Hd3).
  exists v3. split; [assumption|]. split; congruence.
Qed.

Lemma payload_step_PushJob q j : payload_step q (queue_of (PushJob j q)).
Proof.
  intros Hwf Hfresh.
  destruct (PushJob_step j q Hwf Hfresh) as (Hwf' & Hfresh' & _).
  split; [assumption|]. split; [assumption|].
  intros k v Hv. exists v. split; [|auto].
  destruct (PushJob_cases j q) as [[Hc ->]|(Hc & r & d' & Hup & Hr)];
    [exact Hv|].
  simpl in Hr.
  assert (Hdb : db (queue_of (PushJob j q)) = d').
  { destruct r as [[]|e].
    - apply Signals_queue_of in Hr as [[c ->] _]. reflexivity.
    - rewrite Hr. reflexivity. }
  rewrite Hdb.
  apply tx_Put_tx in Hup as [_ [(e & _ & ->)|(_ & _ & ->)]]; [exact Hv|].
  rewrite lookup_insert_ne; [exact Hv|].
  intros Heq. rewrite <- Heq, Hfresh in Hv by lia. discriminate.
Qed.

Lemma payload_step_updateJobStatus q id status message :
  payload_step q (queue_of (updateJobStatus id status message q)).
Proof.
  intros Hwf Hfresh.
  destruct (updateJobStatus_step id status message q Hwf Hfresh)
    as (Hwf' & Hfresh' & _).
  split; [assumption|]. split; [assumption|].
  destruct (updateJobStatus_queue_of id status message q)
    as (r & d' & c & Hup & ->). simpl.
  apply updateJobStatus_tx in Hup
    as [_ [(e & _ & He)|(v0 & _ & _ & Hv0 & He)]];
    intros k v Hv; rewrite He.
  - exists v. auto.
  - rewrite (Hwf _ _ Hv0), lookup_insert. case_decide as Hk.
    + subst k. rewrite Hv0 in Hv. injection Hv as <-.
      eexists. split; [reflexivity|]. rewrite DecodeJob_Bytes. auto.
    + exists v. auto.
Qed.

Lemma payload_step_GetJobByID q id : payload_step q (snd (GetJobByID id q)).
Proof.
  intros Hwf Hfresh.
  destruct (GetJobByID_step id q) as (d & -> & He & _).
  unfold store_wf, uuid_fresh, same_payload. simpl. rewrite He.
  split; [exact Hwf|]. split; [exact Hfresh|].
  intros k v Hv. exists v. auto.
Qed.

(** X16.  One operation of the engine, on a store that keeps every
    record under its own ID and holds no UUID still to be drawn: a
    stored record is afterwards either gone, which only the sweep does
    and only to a terminal record, or stored with the ID and the data
    it had. *)
Theorem run_keeps_payload o q k v :
  store_wf (db q) ->
  uuid_fresh q ->
  entries (db q) !! k = Some v ->
  match entries (db (run o q)) !! k with
  | Some v' =>
      ID (DecodeJob v') = ID (DecodeJob v) /\
      Data (DecodeJob v') = Data (DecodeJob v)
  | None => o = OpProcessJobs /\ terminal (Status (DecodeJob v)) = true
  end.
Proof.
  intros Hwf Hfresh Hv.
  assert (Hstep : forall q', payload_step q q' ->
            match entries (db q') !! k with
            | Some v' =>
                ID (DecodeJob v') = ID (DecodeJob v) /\
                Data (DecodeJob v') = Data (DecodeJob v)
            | None => o = OpProcessJobs /\
                      terminal (Status (DecodeJob v)) = true
            end).
  { intros q' Hp. destruct (Hp Hwf Hfresh) as (_ & _ & Hsame).
    destruct (Hsame _ _ Hv) as (v' & -> & Hid & Hd). auto. }
  destruct o as [j|d|id|id status message| |w jobID|jobID err]; cbn [run].
  - apply Hstep, payload_step_PushJob.
  - apply Hstep, (payload_step_PushJob q (mkJob Uack [] d "" 0)).
  - apply Hstep, payload_step_GetJobByID.
  - apply Hstep, payload_step_updateJobStatus.
  - destruct (processJobs_step q) as (r & d & -> & Hup). simpl.
    apply processJobs_tx in Hup as [_ [(e & _ & ->)|(_ & _ & ->)]].
    + rewrite Hv. auto.
    + destruct (purge _ _ !! k) as [v'|] eqn:Hp.
      * apply purge_subseteq in Hp. rewrite Hv in Hp. injection Hp as <-.
        auto.
      * split; [reflexivity|].
        rewrite purge_map_to_list in Hp by exact Hwf.
        apply map_lookup_filter_None in Hp as [Hp|Hp]; [congruence|].
        specialize (Hp _ Hv). simpl in Hp.
        destruct (terminal (Status (DecodeJob v))); congruence.
  - apply Hstep.
    apply (dispatch_receive_rel payload_step).
    + intros; apply payload_step_updateJobStatus.
    + intros; apply payload_step_GetJobByID.
    + apply payload_step_trans.
  - apply Hstep.
    destruct (dispatch_report_as_update jobID err q)
      as (status & message & -> & _).
    apply payload_step_updateJobStatus.
Qed.

(** X10.  The sweep of [processJobs] on a store that keeps every record
    under its own ID is all or nothing: when it returns an error the
    store has the entries it had; when it returns [nil] the store has
    exactly the entries that were not terminal.  The notification
    channel is untouched in both. *)
Theorem processJobs_all_or_nothing q :
  store_wf (db q) ->
  exists err q',
    processJobs q = (err, q') /\
    notifier q' = notifier q /\
    match err with
    | Some _ => entries (db q') = entries (db q)
    | None =>
        entries (db q') =
          filter (fun kv => terminal (Status (DecodeJob (snd kv))) = false)
                 (entries (db q))
    end.
Proof.
  intros Hwf. destruct (processJobs_step q) as (r & d & Hp & Hup).
  eexists _, _. split; [exact Hp|]. simpl. split; [reflexivity|].
  apply processJobs_tx in Hup as [_ [(e & -> & He)|(-> & _ & He)]]; simpl.
  - exact He.
  - rewrite He. apply purge_map_to_list. exact Hwf.
Qed.

(** X11.  After a sweep that returned [nil], on a store that keeps
    every record under its own ID, a second sweep finds nothing to
    delete: whatever it returns, the store has the entries the first
    sweep left. *)
Theorem processJobs_idempotent q q1 :
  store_wf (db q) ->
  processJobs q = (None, q1) ->
  entries (db (snd (processJobs q1))) = entries (db q1).
Proof.
  intros Hwf H1.
  destruct (processJobs_step q) as (r & d & Hp & Hup).
  rewrite H1 in Hp. injection Hp as Hr ->.
  apply processJobs_tx in Hup as [_ [(e & -> & _)|(_ & _ & He1)]];
    [discriminate|].
  rewrite purge_map_to_list in He1 by exact Hwf.
  destruct (processJobs_step (set_db d q)) as (r2 & d2 & -> & Hup2).
  simpl in *.
  apply processJobs_tx in Hup2 as [_ [(e & _ & He2)|(_ & _ & He2)]];
    [exact He2|].
  assert (Hwf1 : forall k v, entries d !! k = Some v -> ID (DecodeJob v) = k).
  { intros k v Hv. rewrite He1 in Hv.
    apply map_lookup_filter_Some in Hv as [Hv _]. eapply Hwf, Hv. }
  rewrite purge_map_to_list in He2 by exact Hwf1.
  rewrite He2. apply map_eq. intros k. apply option_eq. intros v.
  rewrite map_lookup_filter_Some. rewrite He1, map_lookup_filter_Some.
  tauto.
Qed.

End PayloadProperties.

Section FetchProperties.

Context `{codec : JobCodec} `{uuids : UuidSource}.

(** The transaction of [updateJobStatus] on a stored ID when the store
    does its three operations. *)
Lemma updateJobStatus_tx_exact id status message m fs v :
  m !! id = Some v ->
  db_Update (updateJobStatus_fn id status message)
            (mkDB m false (None :: None :: None :: fs)) =
    (Ok tt,
     mkDB (<[ID (DecodeJob v) := Bytes (marked status message (DecodeJob v))]> m)
          false fs).
Proof.
  intros Hv.
  unfold db_Update, db_Begin, db_End, updateJobStatus_fn, tx_bind, tx_Get,
    tx_Put, tx_op. simpl. rewrite Hv. simpl.
  unfold marked. destruct (decide (status = Nack)); reflexivity.
Qed.

(** X7.  The dispatch loop with a job ID it has received, when the
    marking goes through and the fetch that follows fails with [e], on
    a store that keeps every record under its own ID and then does the
    three operations of the next update: the loop marks the record
    [Failed] with the text of [e] and goes on to its next round, not to
    [DoWork]; the record keeps its data and its retry count, and
    nothing is sent on the notification channel. *)
Theorem dispatch_receive_fetch_fails w jobID q v e fs :
  store_wf (db q) ->
  entries (db q) !! jobID = Some v ->
  closed (db q) = false ->
  faults (db q) = None :: None :: None :: Some e :: fs ->
  quiet 3 fs ->
  exists q',
    dispatch_receive w jobID q = Returns Continue q' /\
    entries (db q') =
      <[jobID := Bytes (mkJob Failed jobID (Data (DecodeJob v)) (Error e)
                              (RetryCount (DecodeJob v)))]>
        (entries (db q)) /\
    notifier q' = notifier q.
Proof.
  intros Hwf Hv Hc Hf Hq. unfold dispatch_receive.
  destruct (updateJobStatus_no_signal jobID Uack
              (String.append "Picked up by " (WorkerID w)) q)
    as (r & d' & Hup & ->); [discriminate|].
  assert (Hdb : db q = mkDB (entries (db q)) false
                            (None :: None :: None :: Some e :: fs)).
  { destruct (db q); simpl in *; congruence. }
  rewrite Hdb in Hup.
  rewrite (updateJobStatus_tx_exact _ _ _ _ _ _ Hv) in Hup.
  injection Hup as <- <-. simpl.
  rewrite (Hwf _ _ Hv).
  unfold GetJobByID, db_View, db_Begin, tx_bind, tx_Get, tx_op. simpl.
  set (job1 := marked Uack (String.append "Picked up by " (WorkerID w))
                      (DecodeJob v)).
  set (m1 := <[jobID := Bytes job1]> (entries (db q))).
  match goal with |- context [updateJobStatus jobID Failed ?m ?q0] =>
    set (q2 := q0) end.
  assert (Hv2 : entries (db q2) !! jobID = Some (Bytes job1))
    by apply lookup_insert_eq.
  destruct (updateJobStatus_no_signal jobID Failed (Error e) q2)
    as (r3 & d3 & Hup3 & ->); [discriminate|].
  destruct (updateJobStatus_tx_quiet jobID Failed (Error e) (db q2)
              (Bytes job1) 0 eq_refl Hv2 Hq) as (fs3 & _ & Hok).
  rewrite Hok in Hup3. injection Hup3 as <- <-. simpl.
  eexists. split; [reflexivity|]. simpl.
  rewrite DecodeJob_Bytes. subst job1 m1. simpl.
  rewrite (Hwf _ _ Hv), insert_insert_eq.
  split; [|reflexivity].
  unfold marked. simpl. rewrite (Hwf _ _ Hv). reflexivity.
Qed.

End FetchProperties.

(** ** More of the goroutines *)

(** The job ID a dispatch loop has in hand. *)
Definition pc_id (pc : LoopPC) : option bytes :=
  match pc with
  | Received id | Marked id | FetchFailed id _ | Working id _
  | Reporting id _ | Parked id _ => Some id
  | AtSelect | Exited => None
  end.

(** The store of [q] has a record under [id]. *)
Definition stored (q : Queue) (id : bytes) : Prop :=
  is_Some (entries (db q) !! id).

(** Every job ID in the channel [c], in the parked sends [ps] and in
    the hands of the loops [ls] has a record in the store of [q]. *)
Definition ids_stored (q : Queue) (c : option (list bytes))
    (ps : list bytes) (ls : list Loop) : Prop :=
  (forall buf, c = Some buf -> Forall (stored q) buf) /\
  Forall (stored q) ps /\
  Forall (fun l => forall id, pc_id (loop_pc l) = Some id -> stored q id) ls.

Definition notified_stored (s : System) : Prop :=
  ids_stored (queue s) (notifier (queue s)) (parked_pushes s) (loops s).

Lemma ids_stored_mono q q' c ps ls :
  (forall id, stored q id -> stored q' id) ->
  ids_stored q c ps ls -> ids_stored q' c ps ls.
Proof.
  intros Hm (H1 & H2 & H3). split; [|split].
  - intros buf Hb. eapply Forall_impl; [exact (H1 _ Hb)|exact Hm].
  - eapply Forall_impl; [exact H2|exact Hm].
  - eapply Forall_impl; [exact H3|]. simpl. intros l Hl id Hid. auto.
Qed.

Section NotifiedProperties.

Context `{codec : JobCodec} `{uuids : UuidSource}.

(** What [updateJobStatus] does to the channel and to the keys of the
    store. *)
Lemma updateJobStatus_ids id status message q :
  (forall k, stored q k ->
     stored (queue_of (updateJobStatus id status message q)) k) /\
  match updateJobStatus id status message q with
  | Returns _ q' =>
      notifier q' = notifier q \/
      exists buf, notifier q = Some buf /\
        notifier q' = Some (buf ++ [id]) /\ stored q id
  | Blocks id' q' _ => id' = id /\ notifier q' = notifier q /\ stored q id
  end.
Proof.
  destruct (updateJobStatus_cases id status message q)
    as (r & d' & Hup & Hcases).
  pose proof (updateJobStatus_tx _ _ _ _ _ _ Hup) as [_ Htx].
  assert (Hmono : forall k, stored q k -> is_Some (entries d' !! k)).
  { intros k Hk. destruct Htx as [(e & _ & ->)|(v & _ & _ & _ & ->)];
      [exact Hk|].
    rewrite lookup_insert. case_decide; [eauto|exact Hk]. }
  destruct Hcases as [(Hs & He & Hsig)|[Hn Heq]].
  - assert (Hst : stored q id).
    { destruct Htx as [(e & -> & _)|(v & _ & _ & Hv & _)];
        [discriminate|]. unfold stored. rewrite Hv. eauto. }
    inversion Hsig as [buf Hb Hlt Ho|k Hfull Hk Ho]; simpl.
    + split; [exact Hmono|]. right. exists buf. auto.
    + split; [exact Hmono|]. auto.
  - rewrite Heq. simpl. split; [exact Hmono|]. left. reflexivity.
Qed.

Lemma PushJob_ids j q :
  (forall k, stored q k -> stored (queue_of (PushJob j q)) k) /\
  match PushJob j q with
  | Returns _ q' =>
      notifier q' = notifier q \/
      exists buf id, notifier q = Some buf /\
        notifier q' = Some (buf ++ [id]) /\ stored q' id
  | Blocks id q' _ => notifier q' = notifier q /\ stored q' id
  end.
Proof.
  destruct (PushJob_cases j q) as [[Hc ->]|(Hc & r & d' & Hup & Hr)];
    [simpl; auto|].
  simpl in Hr.
  apply tx_Put_tx in Hup as [_ Htx].
  assert (Hmono : forall k, stored q k -> is_Some (entries d' !! k)).
  { intros k Hk. destruct Htx as [(e & _ & ->)|(_ & _ & ->)]; [exact Hk|].
    rewrite lookup_insert. case_decide; [eauto|exact Hk]. }
  destruct r as [[]|e].
  - assert (Hst : is_Some (entries d' !! NewV4 (entropy q))).
    { destruct Htx as [(e & [=] & _)|(_ & _ & ->)].
      rewrite lookup_insert_eq. eauto. }
    inversion Hr as [buf Hb Hlt Ho|k Hfull Hk Ho]; simpl.
    + split; [exact Hmono|]. right. exists buf, (NewV4 (entropy q)). auto.
    + split; [exact Hmono|]. auto.
  - rewrite Hr. simpl. split; [exact Hmono|]. left. reflexivity.
Qed.

Lemma GetJobByID_ids id q r q' :
  GetJobByID id q = (r, q') ->
  (forall k, stored q k -> stored q' k) /\ notifier q' = notifier q.
Proof.
  intros Hget. destruct (GetJobByID_step id q) as (d & Hq & He & _).
  rewrite Hget in Hq. simpl in Hq. subst q'.
  unfold stored. simpl. rewrite He. auto.
Qed.

Lemma Forall_stored_app q buf id :
  Forall (stored q) buf -> stored q id -> Forall (stored q) (buf ++ [id]).
Proof. intros H1 H2. apply Forall_app. split; [exact H1|]. auto. Qed.

(** What a step of a loop keeps of the stored IDs. *)
Lemma loop_step_ids w done q pc q' pc' :
  loop_step w done q pc q' pc' ->
  pc_ok pc ->
  (forall id, pc_id pc = Some id -> stored q id) ->
  (forall buf, notifier q = Some buf -> Forall (stored q) buf) ->
  (forall id, stored q id -> stored q' id) /\
  (forall id, pc_id pc' = Some id -> stored q' id) /\
  (forall buf, notifier q' = Some buf -> Forall (stored q') buf).
Proof.
  intros Hstep Hok Hpc Hbuf.
  destruct Hstep as [q Hd|q jobID buf Hn|q Hd Hn|q jobID err q' Hup
                    |q jobID r q' Hget|q jobID err err' q' Hup
                    |q jobID job err|q jobID err|q id k buf Hn Hlt].
  - split; [auto|]. split; [discriminate|exact Hbuf].
  - specialize (Hbuf _ Hn). apply Forall_cons in Hbuf as [Hj Hb].
    split; [auto|]. split.
    + intros id [= <-]. exact Hj.
    + simpl. intros buf' [= <-]. exact Hb.
  - split; [auto|]. split; [discriminate|exact Hbuf].
  - destruct (updateJobStatus_ids jobID Uack
                (String.append "Picked up by " (WorkerID w)) q)
      as [Hmono Hnot].
    rewrite Hup in Hmono, Hnot. simpl in Hmono.
    split; [exact Hmono|]. split.
    + intros id Hid. apply Hmono, Hpc.
      destruct err; [discriminate|]. exact Hid.
    + intros buf Hb.
      destruct Hnot as [Hsame|(buf0 & Hb0 & Hb' & Hst)].
      * rewrite Hsame in Hb.
        eapply Forall_impl; [exact (Hbuf _ Hb)|exact Hmono].
      * rewrite Hb' in Hb. injection Hb as <-.
        apply Forall_stored_app; [|auto].
        eapply Forall_impl; [exact (Hbuf _ Hb0)|exact Hmono].
  - destruct (GetJobByID_ids _ _ _ _ Hget) as [Hmono Hsame].
    split; [exact Hmono|]. split.
    + intros id Hid. apply Hmono, Hpc. destruct r; exact Hid.
    + intros buf Hb. rewrite Hsame in Hb.
      eapply Forall_impl; [exact (Hbuf _ Hb)|exact Hmono].
  - destruct (updateJobStatus_ids jobID Failed (Error err) q)
      as [Hmono Hnot].
    rewrite Hup in Hmono, Hnot. simpl in Hmono.
    split; [exact Hmono|]. split; [discriminate|].
    intros buf Hb.
    destruct Hnot as [Hsame|(buf0 & Hb0 & Hb' & Hst)].
    + rewrite Hsame in Hb.
      eapply Forall_impl; [exact (Hbuf _ Hb)|exact Hmono].
    + rewrite Hb' in Hb. injection Hb as <-.
      apply Forall_stored_app; [|auto].
      eapply Forall_impl; [exact (Hbuf _ Hb0)|exact Hmono].
  - split; [auto|]. split; [|exact Hbuf].
    intros id Hid. apply Hpc. exact Hid.
  - rewrite dispatch_report_eq.
    match goal with |- context [updateJobStatus jobID ?st ?m q] =>
      destruct (updateJobStatus_ids jobID st m q) as [Hmono Hnot];
      destruct (updateJobStatus jobID st m q) as [a q1|id1 q1 k1] end;
      simpl in *.
    + split; [exact Hmono|]. split; [discriminate|].
      intros buf Hb.
      destruct Hnot as [Hsame|(buf0 & Hb0 & Hb' & Hst)].
      * rewrite Hsame in Hb.
        eapply Forall_impl; [exact (Hbuf _ Hb)|exact Hmono].
      * rewrite Hb' in Hb. injection Hb as <-.
        apply Forall_stored_app; [|auto].
        eapply Forall_impl; [exact (Hbuf _ Hb0)|exact Hmono].
    + destruct Hnot as (-> & Hsame & Hst).
      split; [exact Hmono|]. split.
      * intros id [= <-]. auto.
      * intros buf Hb. rewrite Hsame in Hb.
        eapply Forall_impl; [exact (Hbuf _ Hb)|exact Hmono].
  - simpl in Hok. rewrite Hok. simpl.
    split; [auto|]. split; [discriminate|].
    intros buf' [= <-]. apply Forall_stored_app; [apply Hbuf, Hn|].
    apply Hpc. reflexivity.
Qed.

Lemma notified_step s a s' :
  safe s -> notified_stored s -> step s a s' -> notified_stored s'.
Proof.
  intros Hsafe (Hbuf & Hps & Hls) Hstep.
  destruct Hstep as [s i l q' pc' Hl Hstep|s w Hcl|s j|s i id buf Hp Hn Hlt
                    |s id|s Hcl|s f fs Hcl|s Hcl|s Hcl Hwg|s Hcl];
    unfold notified_stored; simpl.
  - destruct Hsafe as (_ & Hok & _).
    assert (Hokl : pc_ok (loop_pc l))
      by (eapply (Forall_lookup_1 _ _ _ _ Hok); eassumption).
    assert (Hpcl : forall id, pc_id (loop_pc l) = Some id ->
                              stored (queue s) id)
      by (eapply (Forall_lookup_1 _ _ _ _ Hls); eassumption).
    destruct (loop_step_ids _ _ _ _ _ _ Hstep Hokl Hpcl Hbuf)
      as (Hmono & Hpc' & Hbuf').
    split; [exact Hbuf'|]. split.
    + eapply Forall_impl; [exact Hps|exact Hmono].
    + apply Forall_insert; [|exact Hpc'].
      eapply Forall_impl; [exact Hls|]. simpl. intros l0 H0 id Hid. auto.
  - split; [exact Hbuf|]. split; [exact Hps|].
    apply Forall_app. split; [exact Hls|].
    constructor; [discriminate|constructor].
  - destruct (PushJob_ids j (queue s)) as [Hmono Hnot].
    destruct (ids_stored_mono _ _ _ _ _ Hmono (conj Hbuf (conj Hps Hls)))
      as (Hbuf1 & Hps1 & Hls1).
    destruct (PushJob j (queue s)) as [a q1|id1 q1 k1]; simpl in *.
    + split; [|split; assumption].
      intros buf Hb. destruct Hnot as [Hsame|(b0 & id & Hb0 & Hb' & Hst)].
      * rewrite Hsame in Hb. auto.
      * rewrite Hb' in Hb. injection Hb as <-.
        apply Forall_stored_app; auto.
    + destruct Hnot as [Hsame Hst].
      split; [intros buf Hb; rewrite Hsame in Hb; auto|].
      split; [apply Forall_stored_app; assumption|assumption].
  - assert (Hst : stored (queue s) id)
      by (eapply (Forall_lookup_1 _ _ _ _ Hps); eassumption).
    split; [|split].
    + intros buf' [= <-]. apply Forall_stored_app; auto.
    + apply Forall_delete. exact Hps.
    + exact Hls.
  - destruct (GetJobByID id (queue s)) as [r q1] eqn:Hget.
    destruct (GetJobByID_ids _ _ _ _ Hget) as [Hmono Hsame]. simpl.
    rewrite Hsame.
    apply (ids_stored_mono (queue s)); [exact Hmono|].
    split; [exact Hbuf|]. split; assumption.
  - split; [exact Hbuf|]. split; assumption.
  - split; [exact Hbuf|]. split; assumption.
  - split; [exact Hbuf|]. split; assumption.
  - split; [exact Hbuf|]. split; assumption.
  - unfold Close_tail, db_Close. simpl.
    assert (Hmono : forall q1, entries (db q1) = entries (db (queue s)) ->
              forall id, stored (queue s) id -> stored q1 id).
    { intros q1 He id. unfold stored. rewrite He. auto. }
    destruct (closed (db (queue s))); simpl;
      (split; [discriminate|]);
      (split; [eapply Forall_impl; [exact Hps|]
              |eapply Forall_impl; [exact Hls|]; simpl; intros l0 H0 id Hid;
               apply H0 in Hid; revert Hid]);
      apply Hmono; reflexivity.
Qed.

(** X12.  In every system that can be reached, every job ID that waits
    in the notification channel, that a parked [PushJob] has still to
    send, or that a dispatch loop has in hand, has a record in the
    store: an ID is sent only after its record is committed, and no
    step after [Init] deletes a record. *)
Theorem notified_ids_are_stored s :
  reachable s -> notified_stored s.
Proof.
  induction 1 as [filepath d seed q Hinit|s a s' Hr IH Hstep].
  - unfold Init in Hinit. destruct (processJobs _) as [err q0] eqn:Hp.
    injection Hinit as <-.
    destruct (processJobs_step
                (mkQueue filepath d (Some []) [] [] 0 500000000 seed))
      as (r & d' & Hp' & _).
    rewrite Hp' in Hp. injection Hp as _ <-.
    unfold notified_stored, ids_stored, boot. simpl.
    split; [intros buf [= <-]; constructor|]. split; constructor.
  - eapply notified_step; [eapply reachable_safe; exact Hr|exact IH|exact Hstep].
Qed.

End NotifiedProperties.

Section RegistryProperties.

Context `{codec : JobCodec} `{uuids : UuidSource}.

(** Until [Close] is called the registries of the queue list the
    loops in the order of their registration: the worker of each, the
    cancel function of each, and each loop has a context of its own. *)
Definition registries_match (s : System) : Prop :=
  closer s = NotCalled ->
  workers (queue s) = loop_worker <$> loops s /\
  shutdownFuncs (queue s) = loop_ctx <$> loops s /\
  loop_ctx <$> loops s = seq 0 (length (contexts s)).

Lemma fmap_set_pc {A} (f : Loop -> A) (ls : list Loop) (i : nat) l pc :
  ls !! i = Some l ->
  f (set_pc pc l) = f l ->
  f <$> <[i := set_pc pc l]> ls = f <$> ls.
Proof.
  intros Hl Hf. rewrite list_fmap_insert, Hf.
  apply list_insert_id. rewrite list_lookup_fmap, Hl. reflexivity.
Qed.

Lemma loop_step_fields w done q pc q' pc' :
  loop_step w done q pc q' pc' ->
  pc_ok pc ->
  workers q' = workers q /\ shutdownFuncs q' = shutdownFuncs q.
Proof.
  intros Hstep Hok.
  destruct Hstep as [q Hd|q jobID buf Hn|q Hd Hn|q jobID err q' Hup
                    |q jobID r q' Hget|q jobID err err' q' Hup
                    |q jobID job err|q jobID err|q id k buf Hn Hlt];
    try (split; reflexivity).
  - pose proof (run_fields_kept
                  (OpUpdateJobStatus jobID Uack
                     (String.append "Picked up by " (WorkerID w))) q)
      as (_ & Hw & Hs & _).
    simpl in Hw, Hs. rewrite Hup in Hw, Hs. auto.
  - pose proof (run_fields_kept (OpGetJobByID jobID) q) as (_ & Hw & Hs & _).
    simpl in Hw, Hs. rewrite Hget in Hw, Hs. auto.
  - pose proof (run_fields_kept
                  (OpUpdateJobStatus jobID Failed (Error err)) q)
      as (_ & Hw & Hs & _).
    simpl in Hw, Hs. rewrite Hup in Hw, Hs. auto.
  - pose proof (run_fields_kept (OpDispatchReport jobID err) q)
      as (_ & Hw & Hs & _).
    simpl in Hw, Hs. rewrite settle_queue_of. auto.
  - simpl in Hok. rewrite Hok. simpl. auto.
Qed.

Lemma registries_step s a s' :
  safe s -> registries_match s -> step s a s' -> registries_match s'.
Proof.
  intros Hsafe Hreg Hstep.
  destruct Hstep as [s i l q' pc' Hl Hstep|s w Hcl|s j|s i id buf Hp Hn Hlt
                    |s id|s Hcl|s f fs Hcl|s Hcl|s Hcl Hwg|s Hcl];
    unfold registries_match in *; simpl; try discriminate.
  - intros Hcl. destruct (Hreg Hcl) as (Hw & Hs & Hc).
    destruct Hsafe as (_ & Hok & _).
    assert (Hokl : pc_ok (loop_pc l))
      by (eapply (Forall_lookup_1 _ _ _ _ Hok); eassumption).
    destruct (loop_step_fields _ _ _ _ _ _ Hstep Hokl) as [Hw' Hs'].
    rewrite Hw', Hs'.
    rewrite !(fmap_set_pc _ _ _ _ _ Hl) by reflexivity. auto.
  - intros _. destruct (Hreg Hcl) as (Hw & Hs & Hc).
    rewrite !fmap_app, Hw, Hs. simpl.
    split; [reflexivity|]. split; [reflexivity|].
    rewrite Hc, length_app. simpl.
    rewrite Nat.add_1_r, seq_S. reflexivity.
  - intros Hcl. destruct (Hreg Hcl) as (Hw & Hs & Hc).
    pose proof (run_fields_kept (OpPushJob j) (queue s))
      as (_ & Hw' & Hs' & _).
    simpl in Hw', Hs'. rewrite Hw', Hs'. auto.
  - exact Hreg.
  - intros Hcl. destruct (Hreg Hcl) as (Hw & Hs & Hc).
    pose proof (run_fields_kept (OpGetJobByID id) (queue s))
      as (_ & Hw' & Hs' & _).
    simpl in Hw', Hs'. rewrite Hw', Hs'. auto.
Qed.

(** X13.  In every system that can be reached, the counter of the wait
    group is the number of dispatch loops that have not exited, so that
    [wg.Done] never takes it below zero; and until [Close] is called,
    [q.workers] and [q.shutdownFuncs] list the worker and the cancel
    function of every loop, in the order of registration, each loop
    with a context of its own. *)
Theorem registries_track_loops s :
  reachable s ->
  wg (queue s) = live_count (loops s) /\
  (0 <= wg (queue s))%Z /\
  (closer s = NotCalled ->
   workers (queue s) = loop_worker <$> loops s /\
   shutdownFuncs (queue s) = loop_ctx <$> loops s /\
   loop_ctx <$> loops s = seq 0 (length (contexts s))).
Proof.
  intros Hr.
  assert (Hreg : registries_match s).
  { induction Hr as [filepath d seed q Hinit|s a s' Hr IH Hstep].
    - unfold Init in Hinit. destruct (processJobs _) as [err q0] eqn:Hp.
      injection Hinit as <-.
      destruct (processJobs_step
                  (mkQueue filepath d (Some []) [] [] 0 500000000 seed))
        as (r & d' & Hp' & _).
      rewrite Hp' in Hp. injection Hp as _ <-.
      intros _. simpl. auto.
    - eapply registries_step;
        [eapply reachable_safe; exact Hr|exact IH|exact Hstep]. }
  destruct (reachable_safe s Hr) as (Hwg & _).
  split; [exact Hwg|]. split; [rewrite Hwg; apply live_count_nonneg|].
  exact Hreg.
Qed.

Lemma live_count_pos ls :
  Exists (fun l => loop_pc l <> Exited) ls -> (0 < live_count ls)%Z.
Proof.
  induction 1 as [l ls Hl|l ls _ IH]; simpl.
  - pose proof (live_count_nonneg ls).
    destruct (loop_pc l); simpl; try lia. contradiction.
  - pose proof (live_nonneg (loop_pc l)). lia.
Qed.

(** X14.  [Close] waits: in a system that can be reached where the
    caller of [Close] is in [q.wg.Wait()] and some dispatch loop has not
    exited, in [DoWork] for instance, the caller of [Close] takes no
    step. *)
Theorem Close_waits_for_loops s :
  reachable s ->
  closer s = Waiting ->
  Exists (fun l => loop_pc l <> Exited) (loops s) ->
  forall s', ~ step s ACloser s'.
Proof.
  intros Hr Hcl Hex s' Hstep.
  destruct (reachable_safe s Hr) as (Hwg & _).
  apply live_count_pos in Hex.
  inversion Hstep; subst; try congruence. lia.
Qed.

(** X15.  Once [Close] has returned, in a system that can be reached:
    [PushJob] returns the error of the closed store, with the job, the
    store and the channel as they were, and is not parked on the nil
    channel; [GetJobByID] and [updateJobStatus] return that error
    too. *)
Theorem after_Close_calls_fail s err :
  reachable s ->
  closer s = Returned err ->
  (forall j, PushJob j (queue s) = Returns (j, Err ErrDBClosed) (queue s)) /\
  (forall id, GetJobByID id (queue s) = (Err ErrDBClosed, queue s)) /\
  (forall id status message,
     updateJobStatus id status message (queue s)
       = Returns (Some ErrDBClosed) (queue s)) /\
  notifier (queue s) = None.
Proof.
  intros Hr Hcl.
  assert (Hnil : forall s0, reachable s0 ->
            forall e, closer s0 = Returned e -> notifier (queue s0) = None).
  { clear. intros s0 Hr0.
    induction Hr0 as [filepath d seed q Hinit|s a s' Hr IH Hstep];
      [discriminate|].
    pose proof (reachable_safe s Hr) as Hsafe.
    destruct Hstep as [s i l q' pc' Hl Hstep|s w Hcl|s j|s i id buf Hp Hn Hlt
                      |s id|s Hcl|s f fs Hcl|s Hcl|s Hcl Hwg|s Hcl];
      simpl; intros e He; try discriminate.
    - destruct Hsafe as (_ & _ & Hcls). rewrite He in Hcls.
      destruct Hcls as (_ & Hex & _).
      assert (Hpc : loop_pc l = Exited)
        by (eapply (Forall_lookup_1 _ _ _ _ Hex); eassumption).
      rewrite Hpc in Hstep. inversion Hstep.
    - congruence.
    - destruct Hsafe as (_ & _ & Hcls). rewrite He in Hcls.
      destruct Hcls as (_ & _ & Hc).
      destruct (PushJob_cases j (queue s)) as [[_ ->]|(Hc' & _)];
        [simpl; eapply IH, He|congruence].
    - rewrite (IH _ He) in Hn. discriminate.
    - destruct (GetJobByID_step id (queue s)) as (d & -> & _).
      simpl. eapply IH, He.
    - unfold Close_tail. simpl.
      destruct (db_Close _); reflexivity. }
  destruct (reachable_safe s Hr) as (_ & _ & Hcls). rewrite Hcl in Hcls.
  destruct Hcls as (_ & _ & Hc).
  split.
  { intros j. destruct (PushJob_cases j (queue s)) as [[_ ->]|(Hc' & _)];
      [reflexivity|congruence]. }
  split.
  { intros id. unfold GetJobByID, db_View, db_Begin. rewrite Hc.
    rewrite set_db_same. reflexivity. }
  split; [|eapply Hnil; eassumption].
  intros id status message.
  unfold updateJobStatus, db_Update, db_Begin. rewrite Hc. simpl.
  rewrite decide_False by (intros [_ [=]]).
  rewrite set_db_same. reflexivity.
Qed.

End RegistryProperties.

(** ** More of the engine on concrete inputs *)

Section MoreDemo.

#[local] Existing Instance ref_codec.
#[local] Existing Instance ref_uuids.

Lemma demo_q1_healthy : healthy demo_q1.
Proof. split; vm_compute; reflexivity. Defined.


Lemma readers_change_nothing_witness :
  entries (db (snd (ListJobs demo_q1))) = entries (db demo_q1) /\
  entries (db (snd (GetJobByID demo_id demo_q1))) = entries (db demo_q1).
Proof.
  destruct (readers_change_nothing demo_q1 demo_id)
    as (H1 & _ & _ & H2 & _).
  split; [exact H2|exact H1].
Defined.

(** What [ListJobs] returns on [demo_q1]. *)
Definition demo_listing : gmap bytes Job * Queue :=
  ({[demo_id := demo_job]}, demo_q1).

Lemma ListJobs_agrees_with_GetJobByID_witness :
  store_wf (db demo_q1) /\
  exists r q1,
    ListJobs demo_q1 = (Ok r, q1) /\
    (r !! demo_id = Some demo_job <->
     exists q2, GetJobByID demo_id demo_q1 = (Ok demo_job, q2)).
Proof.
  split; [exact (proj1 demo_q1_inv)|].
  assert (Hlist : ListJobs demo_q1 =
            (Ok (fst (demo_listing)), snd demo_listing)).
  { vm_compute. reflexivity. }
  eexists _, _. split; [exact Hlist|].
  exact (ListJobs_agrees_with_GetJobByID demo_q1 _ _ demo_id demo_job
           (proj1 demo_q1_inv) eq_refl (quiet_nil 1) Hlist).
Defined.

Lemma updateJobStatus_missing_witness :
  entries (db demo_q0) !! demo_id = None /\
  exists q',
    updateJobStatus demo_id Nack "retry" demo_q0
      = Returns (Some ErrNotFound) q' /\
    notifier q' = notifier demo_q0.
Proof.
  assert (Hnone : entries (db demo_q0) !! demo_id = None)
    by apply lookup_empty.
  split; [exact Hnone|].
  destruct (updateJobStatus_missing demo_id Nack "retry" demo_q0
              Hnone eq_refl (quiet_nil 1)) as (q' & Hup & _ & Hn).
  exists q'. split; [exact Hup|exact Hn].
Defined.

Lemma updateJobStatus_then_GetJobByID_witness :
  store_wf (db demo_q1) /\
  yields (updateJobStatus demo_id Failed "boom" demo_q1) None /\
  exists job q',
    GetJobByID demo_id
      (queue_of (updateJobStatus demo_id Failed "boom" demo_q1))
      = (Ok job, q') /\
    Status job = Failed /\ Message job = "boom".
Proof.
  assert (Hy : yields (updateJobStatus demo_id Failed "boom" demo_q1) None)
    by (vm_compute; constructor).
  assert (Hq : quiet 1 (faults (db (queue_of
                 (updateJobStatus demo_id Failed "boom" demo_q1)))))
    by (vm_compute; constructor).
  split; [exact (proj1 demo_q1_inv)|]. split; [exact Hy|].
  destruct (updateJobStatus_then_GetJobByID demo_id Failed "boom" demo_q1
              (proj1 demo_q1_inv) Hy Hq) as (job & q' & Hget & _ & Hs & Hm).
  exists job, q'. split; [exact Hget|]. split; [exact Hs|exact Hm].
Defined.

Lemma PushJob_ids_distinct_witness :
  yields (PushJob demo_stale demo_q0)
         (mkJob Ack demo_id demo_data "" 7, Ok demo_id) /\
  yields (PushJob demo_stale
            (runs [OpGetJobByID demo_id]
                  (queue_of (PushJob demo_stale demo_q0))))
         (mkJob Ack (ref_NewV4 1) demo_data "" 7, Ok (ref_NewV4 1)) /\
  demo_id <> ref_NewV4 1.
Proof.
  assert (H1 : yields (PushJob demo_stale demo_q0)
                 (mkJob Ack demo_id demo_data "" 7, Ok demo_id))
    by (vm_compute; constructor).
  assert (H2 : yields (PushJob demo_stale
                 (runs [OpGetJobByID demo_id]
                       (queue_of (PushJob demo_stale demo_q0))))
                 (mkJob Ack (ref_NewV4 1) demo_data "" 7, Ok (ref_NewV4 1)))
    by (vm_compute; constructor).
  split; [exact H1|]. split; [exact H2|].
  exact (PushJob_ids_distinct _ _ _ _ _ _ _ _ H1 H2).
Defined.

Lemma dispatch_receive_invokes_witness :
  store_wf (db demo_q1) /\
  entries (db demo_q1) !! demo_id = Some (ref_Bytes demo_job) /\
  exists q',
    dispatch_receive (mkWorker "w1") demo_id demo_q1 =
      Returns (InvokeDoWork (mkJob Uack demo_id demo_data "Picked up by w1" 0))
              q'.
Proof.
  assert (Hv : entries (db demo_q1) !! demo_id = Some (ref_Bytes demo_job))
    by (vm_compute; reflexivity).
  split; [exact (proj1 demo_q1_inv)|]. split; [exact Hv|].
  destruct (dispatch_receive_invokes (mkWorker "w1") demo_id demo_q1 _
              (proj1 demo_q1_inv) Hv eq_refl (quiet_nil 4))
    as (q' & Hd & _).
  exists q'. rewrite Hd. vm_compute. reflexivity.
Defined.

(** The store of [demo_q1], about to fail its fourth operation. *)
Definition demo_q1_fetch_fails : Queue :=
  set_db (mkDB (entries (db demo_q1)) false
               [None; None; None; Some (ErrOther "read error")])
         demo_q1.

Lemma dispatch_receive_fetch_fails_witness :
  entries (db demo_q1_fetch_fails) !! demo_id = Some (ref_Bytes demo_job) /\
  exists q',
    dispatch_receive (mkWorker "w1") demo_id demo_q1_fetch_fails
      = Returns Continue q' /\
    DecodeJob <$> (entries (db q') !! demo_id) =
      Some (mkJob Failed demo_id demo_data "read error" 0).
Proof.
  assert (Hv : entries (db demo_q1_fetch_fails) !! demo_id
               = Some (ref_Bytes demo_job)) by (vm_compute; reflexivity).
  split; [exact Hv|].
  destruct (dispatch_receive_fetch_fails (mkWorker "w1") demo_id
              demo_q1_fetch_fails _ (ErrOther "read error") []
              (proj1 demo_q1_inv) Hv eq_refl eq_refl (quiet_nil 3))
    as (q' & Hd & He & _).
  exists q'. split; [exact Hd|].
  rewrite He, lookup_insert_eq. vm_compute. reflexivity.
Defined.

Lemma dispatch_report_redelivery_witness :
  entries (db demo_q1) !! demo_id = Some (ref_Bytes demo_job) /\
  notifier demo_q1 = Some [demo_id] /\
  exists q',
    dispatch_report demo_id (Some (RecoverableWorkerError "busy")) demo_q1
      = Returns tt q' /\
    notifier q' = Some [demo_id; demo_id].
Proof.
  assert (Hv : entries (db demo_q1) !! demo_id = Some (ref_Bytes demo_job))
    by (vm_compute; reflexivity).
  assert (Hn : notifier demo_q1 = Some [demo_id])
    by (vm_compute; reflexivity).
  assert (Hlt : length [demo_id] < notifier_capacity)
    by (vm_compute; lia).
  split; [exact Hv|]. split; [exact Hn|].
  exact (proj2 (dispatch_report_redelivery demo_id demo_q1) "busy" _ _
           Hv eq_refl (quiet_nil 3) Hn Hlt).
Defined.

(** Two recoverable failures and a read. *)
Definition demo_ops : list op :=
  [OpUpdateJobStatus demo_id Nack "busy";
   OpDispatchReport demo_id (Some (RecoverableWorkerError "busy"));
   OpGetJobByID demo_id].

Lemma RetryCount_counts_nacks_witness :
  store_wf (db demo_q1) /\ uuid_fresh demo_q1 /\ healthy demo_q1 /\
  (OpProcessJobs ∉ demo_ops) /\
  entries (db demo_q1) !! demo_id = Some (ref_Bytes demo_job) /\
  exists v',
    entries (db (runs demo_ops demo_q1)) !! demo_id = Some v' /\
    RetryCount (DecodeJob v') = 2.
Proof.
  assert (Hv : entries (db demo_q1) !! demo_id = Some (ref_Bytes demo_job))
    by (vm_compute; reflexivity).
  assert (Hnot : OpProcessJobs ∉ demo_ops).
  { unfold demo_ops. intros Hin.
    repeat (apply elem_of_cons in Hin as [Hin|Hin]; [discriminate Hin|]).
    inversion Hin. }
  destruct demo_q1_inv as [Hwf Hfresh].
  split; [exact Hwf|]. split; [exact Hfresh|].
  split; [exact demo_q1_healthy|]. split; [exact Hnot|]. split; [exact Hv|].
  destruct (RetryCount_counts_nacks demo_ops demo_q1 demo_id _
              Hwf Hfresh demo_q1_healthy Hnot Hv) as (v' & Hv' & Hrc).
  exists v'. split; [exact Hv'|]. rewrite Hrc. vm_compute. reflexivity.
Defined.

Lemma run_keeps_payload_witness :
  store_wf (db demo_q1) /\ uuid_fresh demo_q1 /\
  entries (db demo_q1) !! demo_id = Some (ref_Bytes demo_job) /\
  match entries (db (run (OpUpdateJobStatus demo_id Ack "Complete") demo_q1))
          !! demo_id with
  | Some v' => Data (DecodeJob v') = demo_data
  | None => False
  end.
Proof.
  assert (Hv : entries (db demo_q1) !! demo_id = Some (ref_Bytes demo_job))
    by (vm_compute; reflexivity).
  destruct demo_q1_inv as [Hwf Hfresh].
  split; [exact Hwf|]. split; [exact Hfresh|]. split; [exact Hv|].
  pose proof (run_keeps_payload (OpUpdateJobStatus demo_id Ack "Complete")
                demo_q1 demo_id _ Hwf Hfresh Hv) as Hp.
  destruct (entries (db (run (OpUpdateJobStatus demo_id Ack "Complete")
                             demo_q1)) !! demo_id) as [v'|].
  - destruct Hp as [_ Hd]. rewrite Hd. vm_compute. reflexivity.
  - destruct Hp as [Hp _]. discriminate Hp.
Defined.

Lemma processJobs_all_or_nothing_witness :
  store_wf (db demo_q3) /\
  exists q',
    processJobs demo_q3 = (None, q') /\
    dom (entries (db q')) = {[ref_NewV4 1]}.
Proof.
  split; [exact (proj1 demo_q3_inv)|].
  destruct (processJobs_all_or_nothing demo_q3 (proj1 demo_q3_inv))
    as (err & q' & Hp & _ & He).
  assert (Herr : err = None).
  { assert (H0 : fst (processJobs demo_q3) = None)
      by (vm_compute; reflexivity).
    rewrite Hp in H0. exact H0. }
  subst err. exists q'. split; [exact Hp|].
  rewrite He. vm_compute. reflexivity.
Defined.

Lemma processJobs_idempotent_witness :
  store_wf (db demo_q3) /\
  processJobs demo_q3 = (None, snd (processJobs demo_q3)) /\
  entries (db (snd (processJobs (snd (processJobs demo_q3))))) =
    entries (db (snd (processJobs demo_q3))).
Proof.
  assert (Hp : processJobs demo_q3 = (None, snd (processJobs demo_q3)))
    by (vm_compute; reflexivity).
  split; [exact (proj1 demo_q3_inv)|]. split; [exact Hp|].
  exact (processJobs_idempotent demo_q3 _ (proj1 demo_q3_inv) Hp).
Defined.

(** A job pushed on the booted system. *)
Definition demo_pushed : System :=
  mkSystem demo_q1 [] [] [] NotCalled.

Lemma demo_pushed_reachable : reachable demo_pushed.
Proof.
  eapply reachable_step.
  - apply (reachable_boot "jobs.db" (mkDB ∅ false []) 0 demo_q0).
    vm_compute. reflexivity.
  - exact (step_push (boot demo_q0) (mkJob Uack [] demo_data "" 0)).
Defined.

Lemma notified_ids_are_stored_witness :
  reachable demo_pushed /\
  notifier (queue demo_pushed) = Some [demo_id] /\
  stored (queue demo_pushed) demo_id.
Proof.
  split; [exact demo_pushed_reachable|]. split; [reflexivity|].
  destruct (notified_ids_are_stored demo_pushed demo_pushed_reachable)
    as (Hbuf & _).
  specialize (Hbuf [demo_id] eq_refl).
  apply Forall_cons in Hbuf as [Hst _]. exact Hst.
Defined.

Lemma demo_registered_reachable : reachable demo_registered.
Proof.
  eapply reachable_step.
  - apply (reachable_boot "jobs.db" (mkDB ∅ false []) 0 demo_q0).
    vm_compute. reflexivity.
  - apply step_register. reflexivity.
Defined.

Lemma registries_track_loops_witness :
  reachable demo_registered /\
  wg (queue demo_registered) = 1%Z /\
  shutdownFuncs (queue demo_registered) = [0].
Proof.
  split; [exact demo_registered_reachable|].
  destruct (registries_track_loops demo_registered demo_registered_reachable)
    as (Hwg & _ & Hreg).
  split; [rewrite Hwg; reflexivity|].
  destruct (Hreg eq_refl) as (_ & Hs & _). rewrite Hs. reflexivity.
Defined.

(** [Close] has cancelled the context of the worker and waits. *)
Definition demo_waiting : System :=
  mkSystem (queue demo_registered) [true]
           [mkLoop (mkWorker "w1") 0 AtSelect] [] Waiting.

Lemma demo_waiting_reachable : reachable demo_waiting.
Proof.
  eapply reachable_step;
    [|exact (step_close_wait
               (mkSystem (queue demo_registered) [true]
                  [mkLoop (mkWorker "w1") 0 AtSelect] [] (Cancelling []))
               eq_refl)].
  eapply reachable_step;
    [|exact (step_close_cancel
               (mkSystem (queue demo_registered) [false]
                  [mkLoop (mkWorker "w1") 0 AtSelect] [] (Cancelling [0]))
               0 [] eq_refl)].
  eapply reachable_step;
    [exact demo_registered_reachable
    |exact (step_close_call demo_registered eq_refl)].
Defined.

Lemma Close_waits_for_loops_witness :
  reachable demo_waiting /\
  closer demo_waiting = Waiting /\
  Exists (fun l => loop_pc l <> Exited) (loops demo_waiting) /\
  forall s', ~ step demo_waiting ACloser s'.
Proof.
  assert (Hex : Exists (fun l => loop_pc l <> Exited) (loops demo_waiting))
    by (left; discriminate).
  split; [exact demo_waiting_reachable|]. split; [reflexivity|].
  split; [exact Hex|].
  exact (Close_waits_for_loops demo_waiting demo_waiting_reachable
           eq_refl Hex).
Defined.

Lemma after_Close_calls_fail_witness :
  reachable demo_closed /\
  closer demo_closed = Returned None /\
  PushJob demo_stale (queue demo_closed)
    = Returns (demo_stale, Err ErrDBClosed) (queue demo_closed).
Proof.
  split; [exact demo_closed_reachable|]. split; [reflexivity|].
  destruct (after_Close_calls_fail demo_closed None demo_closed_reachable
              eq_refl) as (Hpush & _).
  apply Hpush.
Defined.

End MoreDemo.
